(** * BPETokenizer (src/rag/tokenizer_advanced.py): a shallow embedding

    A Python [str] is a [string]; its characters are the code points
    0..255 (Latin-1), classified and case-folded the way Python's [re]
    and [str.lower] treat them.  A Python [dict], [Counter] or
    [defaultdict] is an association list in insertion order, because
    the training loop depends on that order ([max] returns the first
    maximal key, [enumerate] numbers the vocabulary in list order).
    Python [int]s are [Z]. *)

From Stdlib Require Import String Ascii List ZArith NArith Lia Bool Arith.
Import ListNotations.

Local Open Scope string_scope.
Local Open Scope list_scope.

(** ** Exceptions and results *)

Inductive exn : Type :=
| KeyError
| AttributeError
| FileNotFoundError.

Inductive result (A : Type) : Type :=
| Ok (a : A)
| Raise (e : exn).
Arguments Ok {A} a.
Arguments Raise {A} e.

Definition bind {A B : Type} (r : result A) (k : A -> result B) : result B :=
  match r with
  | Ok a => k a
  | Raise e => Raise e
  end.

Notation "x <- r ;; k" := (bind r (fun x => k))
  (at level 61, r at next level, right associativity).

(** [for x in xs: acc = body(acc, x)], where the body may raise. *)
Fixpoint for_each {A S : Type} (body : S -> A -> result S) (xs : list A) (acc : S)
  : result S :=
  match xs with
  | [] => Ok acc
  | x :: xs' => acc' <- body acc x ;; for_each body xs' acc'
  end.

(** ** Insertion-ordered dictionaries *)

Section Dict.
Context {K V : Type}.
Variable keqb : K -> K -> bool.

Definition dict : Type := list (K * V).

(** [d[k]], [None] standing for a missing key. *)
Fixpoint dict_get (d : dict) (k : K) : option V :=
  match d with
  | [] => None
  | (k', v) :: d' => if keqb k k' then Some v else dict_get d' k
  end.

(** [d[k] = v]: an existing key keeps its position, a new one goes last. *)
Fixpoint dict_set (d : dict) (k : K) (v : V) : dict :=
  match d with
  | [] => [(k, v)]
  | (k', v') :: d' =>
      if keqb k k' then (k', v) :: d' else (k', v') :: dict_set d' k v
  end.

(** [d.get(k, dflt)] *)
Definition dict_get_default (d : dict) (k : K) (dflt : V) : V :=
  match dict_get d k with
  | Some v => v
  | None => dflt
  end.

(** [{k: v for (k, v) in items}] *)
Definition dict_of_items (items : list (K * V)) : dict :=
  fold_left (fun d kv => dict_set d (fst kv) (snd kv)) items [].

Definition keys (d : dict) : list K := map fst d.
Definition values (d : dict) : list V := map snd d.
End Dict.

Arguments dict K V : clear implicits.

(** ** Strings and characters *)

Definition pair_eqb (p q : string * string) : bool :=
  String.eqb (fst p) (fst q) && String.eqb (snd p) (snd q).

(** [list(word)]: the one-character strings of a word. *)
Fixpoint chars (s : string) : list string :=
  match s with
  | EmptyString => []
  | String c s' => String c EmptyString :: chars s'
  end.

(** [''.join(tokens)] *)
Fixpoint join (tokens : list string) : string :=
  match tokens with
  | [] => EmptyString
  | t :: ts => t ++ join ts
  end.

(** [''.join(pair)] for a 2-tuple. *)
Definition join_pair (p : string * string) : string := fst p ++ snd p.

Definition in_range (lo hi : N) (c : ascii) : bool :=
  (lo <=? N_of_ascii c)%N && (N_of_ascii c <=? hi)%N.

(** [str.isalnum] on a Latin-1 code point: letters, decimal digits and the
    other numeric characters (superscripts and vulgar fractions). *)
Definition is_alnum (c : ascii) : bool :=
  in_range 48 57 c || in_range 65 90 c || in_range 97 122 c
  || in_range 170 170 c || in_range 178 179 c || in_range 181 181 c
  || in_range 185 186 c || in_range 188 190 c
  || in_range 192 214 c || in_range 216 246 c || in_range 248 255 c.

(** The class [\w] of a [str] pattern: alphanumeric or underscore. *)
Definition is_word (c : ascii) : bool :=
  is_alnum c || in_range 95 95 c.

(** The class [\s] of a [str] pattern. *)
Definition is_space (c : ascii) : bool :=
  in_range 9 13 c || in_range 28 32 c || in_range 133 133 c || in_range 160 160 c.

(** [str.lower] on one Latin-1 code point. *)
Definition lower_char (c : ascii) : ascii :=
  if in_range 65 90 c || in_range 192 214 c || in_range 216 222 c
  then ascii_of_N (N_of_ascii c + 32)
  else c.

(** [text.lower()] *)
Fixpoint lower (s : string) : string :=
  match s with
  | EmptyString => EmptyString
  | String c s' => String (lower_char c) (lower s')
  end.

Fixpoint str_forall (f : ascii -> bool) (s : string) : bool :=
  match s with
  | EmptyString => true
  | String c s' => f c && str_forall f s'
  end.

(** ** The pre-tokenizer: [re.findall(r'\w+|[^\w\s]', text.lower())]

    The scanner is written over an arbitrary character class [cls] in the
    place of [\w], so that the same definition can be read with the class
    the source uses and with the class the specification names. *)

Section Findall.
Variable cls : ascii -> bool.

(** The longest prefix of class characters (the greedy [cls+]) and what
    follows it. *)
Fixpoint span_cls (s : string) : string * string :=
  match s with
  | EmptyString => (EmptyString, EmptyString)
  | String c s' =>
      if cls c
      then let (run, rest) := span_cls s' in (String c run, rest)
      else (EmptyString, s)
  end.

(** The match of [cls+|[^cls\s]] anchored at the head of [s], with the
    remaining input; [None] when the pattern does not match there. *)
Definition match_at (s : string) : option (string * string) :=
  match s with
  | EmptyString => None
  | String c s' =>
      if cls c then Some (span_cls s)
      else if is_space c then None
      else Some (String c EmptyString, s')
  end.

(** [findall]: take the match at the current position and continue after
    it, or step over one character when there is none. *)
Fixpoint findall_fuel (fuel : nat) (s : string) : list string :=
  match fuel with
  | O => []
  | S fuel' =>
      match s with
      | EmptyString => []
      | String _ s' =>
          match match_at s with
          | Some (m, rest) => m :: findall_fuel fuel' rest
          | None => findall_fuel fuel' s'
          end
      end
  end.

Definition findall (s : string) : list string :=
  findall_fuel (String.length s) s.

Definition head_not_cls (s : string) : Prop :=
  match s with
  | EmptyString => True
  | String c _ => cls c = false
  end.

(** What the specification's sentence describes: the segments of a text
    are its maximal runs of class characters and its single characters
    that are neither of the class nor whitespace, in order; whitespace
    produces nothing. *)
Inductive Segments : string -> list string -> Prop :=
| Seg_end : Segments EmptyString []
| Seg_space c s segs :
    cls c = false -> is_space c = true ->
    Segments s segs -> Segments (String c s) segs
| Seg_single c s segs :
    cls c = false -> is_space c = false ->
    Segments s segs -> Segments (String c s) (String c EmptyString :: segs)
| Seg_run run s segs :
    run <> EmptyString -> str_forall cls run = true -> head_not_cls s ->
    Segments s segs -> Segments (run ++ s) (run :: segs).
End Findall.

Definition _pre_tokenize (text : string) : list string :=
  findall is_word (lower text).

(** The pre-tokenizer as the specification words it, with alphanumeric
    characters in the place of word characters. *)
Definition alnum_pre_tokenize (text : string) : list string :=
  findall is_alnum (lower text).

(** ** The tokenizer object *)

Definition pad_token : string := "<|pad|>".
Definition unk_token : string := "<|unk|>".
Definition bos_token : string := "<|bos|>".
Definition eos_token : string := "<|eos|>".

Definition special_tokens : list string :=
  [pad_token; unk_token; bos_token; eos_token].

(** [x in xs] for a list of strings. *)
Definition str_in (x : string) (xs : list string) : bool :=
  existsb (String.eqb x) xs.

(** The attributes the methods below read and write.  [inv_vocab] is not
    set by [__init__]: it exists only once [train] or [load] has run. *)
Record BPETokenizer : Type := mkBPETokenizer {
  vocab_size : Z;
  vocab : dict string Z;
  merges : list (string * string);
  inv_vocab : option (dict Z string)
}.

(** [BPETokenizer(vocab_size)] *)
Definition __init__ (vocab_size : Z) : BPETokenizer :=
  {| vocab_size := vocab_size; vocab := []; merges := []; inv_vocab := None |}.

(** ** Training *)

(** [Counter.update(words)] *)
Definition counter_update (c : dict string Z) (words : list string)
  : dict string Z :=
  fold_left
    (fun c w => dict_set String.eqb c w (dict_get_default String.eqb c w 0 + 1)%Z)
    words c.

(** The word frequency table of a corpus. *)
Definition count_words (texts : list string) : dict string Z :=
  fold_left (fun word_freqs text => counter_update word_freqs (_pre_tokenize text))
            texts [].

(** The inner loop [for char in word: if char not in vocab: vocab.append(char)]. *)
Definition add_chars (vocab : list string) (word : string) : list string :=
  fold_left (fun vocab char => if str_in char vocab then vocab else vocab ++ [char])
            (chars word) vocab.

(** The vocabulary list before the first merge. *)
Definition seed_vocab (word_freqs : dict string Z) : list string :=
  fold_left add_chars (keys word_freqs) special_tokens.

(** [{word: [c for c in word] for word in word_freqs.keys()}] *)
Definition seed_splits (word_freqs : dict string Z) : dict string (list string) :=
  dict_of_items String.eqb (map (fun word => (word, chars word)) (keys word_freqs)).

(** The pairs [(split[i], split[i + 1])] for [i] in [range(len(split) - 1)]. *)
Fixpoint adjacent (split : list string) : list (string * string) :=
  match split with
  | [] => []
  | a :: rest =>
      match rest with
      | [] => []
      | b :: _ => (a, b) :: adjacent rest
      end
  end.

(** One word's contribution to [pair_freqs] (a [defaultdict(int)]). *)
Definition count_split (pair_freqs : dict (string * string) Z)
           (split : list string) (freq : Z) : dict (string * string) Z :=
  fold_left
    (fun pf pair => dict_set pair_eqb pf pair (dict_get_default pair_eqb pf pair 0 + freq)%Z)
    (adjacent split) pair_freqs.

(** The pair-counting loop of one iteration. *)
Definition count_pairs (word_freqs : dict string Z)
           (splits : dict string (list string)) : result (dict (string * string) Z) :=
  for_each
    (fun pair_freqs wf =>
       match dict_get String.eqb splits (fst wf) with
       | None => Raise KeyError
       | Some split =>
           if Nat.eqb (length split) 1 then Ok pair_freqs
           else Ok (count_split pair_freqs split (snd wf))
       end)
    word_freqs [].

(** [max(d, key=d.get)] continued from a current best: a later key replaces
    it only when its value is strictly greater. *)
Fixpoint max_from (best : string * string) (best_val : Z)
         (items : dict (string * string) Z) : string * string :=
  match items with
  | [] => best
  | (k, v) :: items' =>
      if (best_val <? v)%Z then max_from k v items' else max_from best best_val items'
  end.

(** [max(pair_freqs, key=pair_freqs.get)], [None] for the empty dictionary
    (the source tests [not pair_freqs] before it calls [max]). *)
Definition max_key (pair_freqs : dict (string * string) Z) : option (string * string) :=
  match pair_freqs with
  | [] => None
  | (k, v) :: items => Some (max_from k v items)
  end.

(** One left-to-right sweep replacing every adjacent occurrence of [pair]
    by [new_token]; a merged symbol is not looked at again in the sweep. *)
Fixpoint merge_pass (pair : string * string) (new_token : string)
         (split : list string) : list string :=
  match split with
  | [] => []
  | a :: rest =>
      match rest with
      | [] => [a]
      | b :: rest' =>
          if pair_eqb (a, b) pair
          then new_token :: merge_pass pair new_token rest'
          else a :: merge_pass pair new_token rest
      end
  end.

(** The loop that rewrites [splits] after a merge. *)
Definition update_splits (word_freqs : dict string Z) (best_pair : string * string)
           (new_token : string) (splits : dict string (list string))
  : result (dict string (list string)) :=
  for_each
    (fun splits word =>
       match dict_get String.eqb splits word with
       | None => Raise KeyError
       | Some split =>
           if Nat.eqb (length split) 1 then Ok splits
           else Ok (dict_set String.eqb splits word (merge_pass best_pair new_token split))
       end)
    (keys word_freqs) splits.

(** The variables the merge loop updates: the local list [vocab], the
    attribute [self.merges] and the local dictionary [splits]. *)
Record train_state : Type := mkTrainState {
  ts_vocab : list string;
  ts_merges : list (string * string);
  ts_splits : dict string (list string)
}.

(** One pass through the body of [while len(vocab) < self.vocab_size],
    the loop test included.  [Ok None] is the loop ending, by its test or
    by [break]; [Ok (Some st')] is a completed merge iteration. *)
Definition train_iter (target : Z) (word_freqs : dict string Z) (st : train_state)
  : result (option train_state) :=
  if (Z.of_nat (length (ts_vocab st)) <? target)%Z then
    pair_freqs <- count_pairs word_freqs (ts_splits st) ;;
    match max_key pair_freqs with
    | None => Ok None
    | Some best_pair =>
        let new_token := join_pair best_pair in
        splits' <- update_splits word_freqs best_pair new_token (ts_splits st) ;;
        Ok (Some {| ts_vocab := ts_vocab st ++ [new_token];
                    ts_merges := ts_merges st ++ [best_pair];
                    ts_splits := splits' |})
    end
  else Ok None.

(** The merge loop; [None] when the fuel runs out before the loop ends. *)
Fixpoint train_loop (fuel : nat) (target : Z) (word_freqs : dict string Z)
         (st : train_state) : option (result train_state) :=
  match fuel with
  | O => None
  | S fuel' =>
      match train_iter target word_freqs st with
      | Raise e => Some (Raise e)
      | Ok None => Some (Ok st)
      | Ok (Some st') => train_loop fuel' target word_freqs st'
      end
  end.

(** [enumerate(vocab)] turned into [(token, idx)] items. *)
Definition enumerate_items (vocab : list string) : list (string * Z) :=
  combine vocab (map Z.of_nat (seq 0 (length vocab))).

(** [{idx: token for token, idx in vocab.items()}] *)
Definition invert (vocab : dict string Z) : dict Z string :=
  dict_of_items Z.eqb (map (fun kv => (snd kv, fst kv)) vocab).

(** The state the merge loop starts from. *)
Definition train_start (self : BPETokenizer) (word_freqs : dict string Z) : train_state :=
  {| ts_vocab := seed_vocab word_freqs;
     ts_merges := merges self;
     ts_splits := seed_splits word_freqs |}.

(** Every merge iteration lengthens [vocab] by one, so the loop ends within
    [vocab_size - len(vocab)] iterations and one more test. *)
Definition train_fuel (self : BPETokenizer) (word_freqs : dict string Z) : nat :=
  S (Z.to_nat (vocab_size self - Z.of_nat (length (seed_vocab word_freqs)))).

(** The tokenizer [train] leaves from the final loop state. *)
Definition train_finish (self : BPETokenizer) (st : train_state) : BPETokenizer :=
  let vocab := dict_of_items String.eqb (enumerate_items (ts_vocab st)) in
  {| vocab_size := vocab_size self;
     vocab := vocab;
     merges := ts_merges st;
     inv_vocab := Some (invert vocab) |}.

(** [self.train(texts)]: the tokenizer after training. *)
Definition train (self : BPETokenizer) (texts : list string)
  : option (result BPETokenizer) :=
  let word_freqs := count_words texts in
  match train_loop (train_fuel self word_freqs) (vocab_size self) word_freqs
                   (train_start self word_freqs) with
  | None => None
  | Some (Raise e) => Some (Raise e)
  | Some (Ok st) => Some (Ok (train_finish self st))
  end.

(** ** Encoding and decoding *)

(** The [for merge in self.merges] loop of [_tokenize_word], with its
    [break] once a single symbol is left. *)
Fixpoint apply_merges (ms : list (string * string)) (chars : list string)
  : list string :=
  match ms with
  | [] => chars
  | merge :: ms' =>
      let new_chars := merge_pass merge (join_pair merge) chars in
      if Nat.eqb (length new_chars) 1 then new_chars else apply_merges ms' new_chars
  end.

Definition _tokenize_word (self : BPETokenizer) (word : string) : list string :=
  match merges self with
  | [] => chars word
  | _ :: _ => apply_merges (merges self) (chars word)
  end.

(** The id appended for one token: [self.vocab[token]] when the token is
    in the vocabulary, [self.vocab[self.unk_token]] otherwise. *)
Definition token_id (self : BPETokenizer) (token : string) : result Z :=
  match dict_get String.eqb (vocab self) token with
  | Some id => Ok id
  | None =>
      match dict_get String.eqb (vocab self) unk_token with
      | Some unk => Ok unk
      | None => Raise KeyError
      end
  end.

Definition encode (self : BPETokenizer) (text : string) : result (list Z) :=
  for_each
    (fun tokens word =>
       for_each
         (fun tokens token => id <- token_id self token ;; Ok (tokens ++ [id]))
         (_tokenize_word self word) tokens)
    (_pre_tokenize text) [].

Definition decode (self : BPETokenizer) (token_ids : list Z) : result string :=
  tokens <-
    for_each
      (fun tokens id =>
         match inv_vocab self with
         | None => Raise AttributeError
         | Some inv =>
             match dict_get Z.eqb inv id with
             | Some token =>
                 if str_in token special_tokens then Ok tokens
                 else Ok (tokens ++ [token])
             | None => Ok tokens
             end
         end)
      token_ids [] ;;
  Ok (join tokens).

(** ** Saving and loading *)

(** The JSON object a tokenizer file holds, typed as [save] writes it;
    a field is [None] when the object has no such key. *)
Record persisted : Type := mkPersisted {
  p_vocab : option (dict string Z);
  p_merges : option (list (string * string));
  p_vocab_size : option Z
}.

(** The files, by path. *)
Definition filesystem : Type := dict string persisted.

Definition save (self : BPETokenizer) (path : string) (fs : filesystem) : filesystem :=
  dict_set String.eqb fs path
    {| p_vocab := Some (vocab self);
       p_merges := Some (merges self);
       p_vocab_size := Some (vocab_size self) |}.

(** [int(v)] and [tuple(m)] leave the integers and pairs of a typed record
    as they are. *)
Definition load (self : BPETokenizer) (path : string) (fs : filesystem)
  : result BPETokenizer :=
  match dict_get String.eqb fs path with
  | None => Raise FileNotFoundError
  | Some data =>
      match p_vocab data with
      | None => Raise KeyError
      | Some vocab =>
          match p_merges data with
          | None => Raise KeyError
          | Some merges =>
              match p_vocab_size data with
              | None => Raise KeyError
              | Some vocab_size =>
                  Ok {| vocab_size := vocab_size;
                        vocab := vocab;
                        merges := merges;
                        inv_vocab := Some (invert vocab) |}
              end
          end
      end
  end.

(** ** Notions the statements use *)

(** A split after the merges [ms], each applied by one full sweep: what
    [splits[word]] holds in [train] once [ms] have been learned. *)
Definition sweeps (ms : list (string * string)) (split : list string) : list string :=
  fold_left (fun split m => merge_pass m (join_pair m) split) ms split.

Definition is_char (s : string) : Prop := String.length s = 1.

Definition nonempty (s : string) : Prop := s <> EmptyString.

(** A pre-tokenized word: a run of word characters or one other character. *)
Definition is_segment (w : string) : Prop :=
  w <> EmptyString /\ (str_forall is_word w = true \/ String.length w = 1).

(** The tokens an id stands for: one, or none for an id without an entry. *)
Definition token_of (inv : dict Z string) (id : Z) : list string :=
  match dict_get Z.eqb inv id with
  | Some token => [token]
  | None => []
  end.

(** Decoding as the specification describes it: map the ids to tokens,
    drop the special ones, concatenate. *)
Definition decode_described (inv : dict Z string) (token_ids : list Z) : string :=
  join (filter (fun token => negb (str_in token special_tokens))
               (flat_map (token_of inv) token_ids)).

(** The id of a symbol with the id [unk] substituted for an absent one. *)
Definition id_or_unk (vocab : dict string Z) (unk : Z) (token : string) : Z :=
  dict_get_default String.eqb vocab token unk.

(** [len(self.vocab)] *)
Definition vocab_len (self : BPETokenizer) : Z := Z.of_nat (length (vocab self)).

(** What holds of the loop state after the merges [learned] have been
    appended to the merges [old] that the tokenizer had before. *)
Record train_inv (word_freqs : dict string Z) (old : list (string * string))
       (learned : list (string * string)) (st : train_state) : Prop := {
  ti_merges : ts_merges st = old ++ learned;
  ti_vocab : ts_vocab st = seed_vocab word_freqs ++ map join_pair learned;
  ti_splits :
    ts_splits st = map (fun wf => (fst wf, sweeps learned (chars (fst wf)))) word_freqs;
  ti_tokens :
    forall m, In m learned -> sweeps learned (chars (join_pair m)) = [join_pair m];
  ti_nodup : NoDup (ts_vocab st)
}.

(** A vocabulary list as seeding leaves it: without repetition, made of
    the special tokens and single characters. *)
Definition seeded (vocab : list string) : Prop :=
  NoDup vocab /\ Forall (fun t => In t special_tokens \/ is_char t) vocab.

(** The shape [splits] keeps: one entry per word of the frequency table, in
    its order, holding a split computed from the word. *)
Definition table (g : string -> list string) (word_freqs : dict string Z)
  : dict string (list string) :=
  map (fun wf => (fst wf, g (fst wf))) word_freqs.

(** A loop state as it would be had the tokenizer held the merges [old]
    before training. *)
Definition prior (old : list (string * string)) (st : train_state) : train_state :=
  {| ts_vocab := ts_vocab st;
     ts_merges := old ++ ts_merges st;
     ts_splits := ts_splits st |}.

(** The corpus of the specification's example. *)
Definition example_corpus : list string :=
  ["the cat sat on the mat"; "the cat ate"].

(** The tokenizer trained on the example corpus. *)
Definition example_tokenizer : BPETokenizer :=
  match train (__init__ 30) example_corpus with
  | Some (Ok t) => t
  | _ => __init__ 30
  end.

(** The ids of a vocabulary are the integers from 0 up to its size. *)
Definition contiguous_ids (vocab : dict string Z) : Prop :=
  forall i, In i (values vocab) <-> (0 <= i < Z.of_nat (length vocab))%Z.

(** ** The byte table of [BPETokenizer.__init__]

    [_bytes_to_unicode] takes no argument, so [self.byte_encoder] and
    [self.byte_decoder] are the same two tables in every tokenizer.  A
    character [chr(n)] is written as its code point [n]: the table reaches
    code points above 255. *)

(** [range(lo, hi)] *)
Definition range (lo hi : N) : list N :=
  map N.of_nat (seq (N.to_nat lo) (N.to_nat hi - N.to_nat lo)).

(** The bytes that stand for themselves: the three ranges of the source,
    from the exclamation mark (33) to the tilde (126), from the inverted
    exclamation mark (161) to the not sign (172) and from the registered
    sign (174) to y with diaeresis (255). *)
Definition printable_bytes : list N :=
  range 33 (126 + 1) ++ range 161 (172 + 1) ++ range 174 (255 + 1).

(** One pass of [for b in range(2 ** 8)] over the lists [bs], [cs] and the
    counter [n]. *)
Definition byte_step (st : list N * list N * N) (b : N) : list N * list N * N :=
  let '(bs, cs, n) := st in
  if existsb (N.eqb b) bs then st
  else (bs ++ [b], cs ++ [2 ^ 8 + n], n + 1)%N.

Definition _bytes_to_unicode : dict N N :=
  let bs := printable_bytes in
  let cs := bs in
  let '(bs, cs, _) := fold_left byte_step (range 0 (2 ^ 8)) (bs, cs, 0%N) in
  dict_of_items N.eqb (combine bs cs).

Definition byte_encoder : dict N N := _bytes_to_unicode.

(** [{v: k for k, v in self.byte_encoder.items()}] *)
Definition byte_decoder : dict N N :=
  dict_of_items N.eqb (map (fun kv => (snd kv, fst kv)) byte_encoder).

(** ** SimpleSubwordTokenizer *)

(** [sorted(xs)] on characters: insertion into ascending code point order. *)
Fixpoint insert_char (c : ascii) (l : list ascii) : list ascii :=
  match l with
  | [] => [c]
  | d :: l' =>
      if (N_of_ascii c <=? N_of_ascii d)%N then c :: l else d :: insert_char c l'
  end.

(** [sorted(set(s))]: the distinct characters of [s] in ascending order. *)
Definition sorted_set (s : string) : list ascii :=
  fold_right insert_char [] (nodup ascii_dec (list_ascii_of_string s)).

(** The stable descending sort behind [Counter.most_common]: an item goes
    before the first item whose count is not greater than its own. *)
Fixpoint insert_by_count (x : string * Z) (l : list (string * Z)) : list (string * Z) :=
  match l with
  | [] => [x]
  | y :: l' => if (snd x <? snd y)%Z then y :: insert_by_count x l' else x :: l
  end.

(** [c.most_common(n)]: the first [n] items of the counter sorted by
    descending count, items of equal count in insertion order. *)
Definition most_common (n : nat) (c : dict string Z) : list (string * Z) :=
  firstn n (fold_right insert_by_count [] c).

Definition is_punct (c : ascii) : bool :=
  existsb (Ascii.eqb c) (list_ascii_of_string ".,!?;:").

(** The match of [\s+([.,!?;:])] anchored at the head of [s]: the
    punctuation character it captures and the input after the match. *)
Fixpoint match_space_punct (s : string) : option (ascii * string) :=
  match s with
  | EmptyString => None
  | String c s' =>
      if is_space c then
        match s' with
        | EmptyString => None
        | String d s'' => if is_punct d then Some (d, s'') else match_space_punct s'
        end
      else None
  end.

(** [re.sub(r'\s+([.,!?;:])', r'\1', s)] *)
Fixpoint sub_space_punct_fuel (fuel : nat) (s : string) : string :=
  match fuel with
  | O => EmptyString
  | S fuel' =>
      match s with
      | EmptyString => EmptyString
      | String c s' =>
          match match_space_punct s with
          | Some (p, rest) => String p (sub_space_punct_fuel fuel' rest)
          | None => String c (sub_space_punct_fuel fuel' s')
          end
      end
  end.

Definition sub_space_punct (s : string) : string :=
  sub_space_punct_fuel (String.length s) s.

Module Simple.

Definition pad_token : string := "<PAD>".
Definition unk_token : string := "<UNK>".
Definition bos_token : string := "<BOS>".
Definition eos_token : string := "<EOS>".

Definition special_tokens : list string :=
  [pad_token; unk_token; bos_token; eos_token].

(** The attributes the methods use ([word_tokens] is set to an empty
    dictionary and never read). *)
Record SimpleSubwordTokenizer : Type := mkSimple {
  token_to_id : dict string Z;
  id_to_token : dict Z string;
  vocab_size : Z
}.

(** The vocabulary list [build_vocab] assembles. *)
Definition build_list (text : string) : list string :=
  let words := findall is_word (lower text) in
  let word_freq := counter_update [] words in
  let vocab := [pad_token; unk_token; bos_token; eos_token] in
  let common_words := map fst (most_common 3000 word_freq) in
  let vocab := vocab ++ common_words in
  fold_left
    (fun vocab ch =>
       let char := String ch EmptyString in
       if negb (str_in char vocab) && negb (is_space ch) then vocab ++ [char] else vocab)
    (sorted_set (lower text)) vocab.

Definition build_vocab (text : string) : SimpleSubwordTokenizer :=
  let vocab := build_list text in
  let token_to_id := dict_of_items String.eqb (enumerate_items vocab) in
  {| token_to_id := token_to_id;
     id_to_token := invert token_to_id;
     vocab_size := Z.of_nat (length vocab) |}.

(** [SimpleSubwordTokenizer(text)]; [if text:] is false for [None] and for
    the empty string. *)
Definition __init__ (text : option string) : SimpleSubwordTokenizer :=
  match text with
  | Some (String c s) => build_vocab (String c s)
  | _ => {| token_to_id := []; id_to_token := []; vocab_size := 0 |}
  end.

(** The ids one word adds: its own, or those of its characters. *)
Definition encode_char (self : SimpleSubwordTokenizer) (ids : list Z) (char : string)
  : result (list Z) :=
  match dict_get String.eqb (token_to_id self) char with
  | Some id => Ok (ids ++ [id])
  | None =>
      match dict_get String.eqb (token_to_id self) unk_token with
      | Some unk => Ok (ids ++ [unk])
      | None => Raise KeyError
      end
  end.

Definition encode (self : SimpleSubwordTokenizer) (text : string) : result (list Z) :=
  for_each
    (fun ids word =>
       match dict_get String.eqb (token_to_id self) word with
       | Some id => Ok (ids ++ [id])
       | None => for_each (encode_char self) (chars word) ids
       end)
    (findall is_word (lower text)) [].

(** The tokens [decode] keeps, in order. *)
Definition kept_tokens (self : SimpleSubwordTokenizer) (ids : list Z) : list string :=
  fold_left
    (fun tokens id =>
       match dict_get Z.eqb (id_to_token self) id with
       | Some token => if str_in token special_tokens then tokens else tokens ++ [token]
       | None => tokens
       end)
    ids [].

Definition decode (self : SimpleSubwordTokenizer) (ids : list Z) : string :=
  let result := String.concat " " (kept_tokens self ids) in
  sub_space_punct result.

End Simple.

(** ** Notions the further statements use *)

(** A text without its whitespace characters. *)
Fixpoint remove_spaces (s : string) : string :=
  match s with
  | EmptyString => EmptyString
  | String c s' => if is_space c then remove_spaces s' else String c (remove_spaces s')
  end.

(** [token in vocab] *)
Definition in_vocab (vocab : dict string Z) (token : string) : bool :=
  match dict_get String.eqb vocab token with
  | Some _ => true
  | None => false
  end.

(** How often a pair stands side by side in a split. *)
Definition occurrences (p : string * string) (split : list string) : Z :=
  Z.of_nat (length (filter (pair_eqb p) (adjacent split))).

(** The occurrences of a pair over all words, each word weighted by its
    frequency; [g] gives the split of a word. *)
Fixpoint weighted_count (g : string -> list string) (p : string * string)
         (word_freqs : dict string Z) : Z :=
  match word_freqs with
  | [] => 0
  | (w, f) :: rest => (f * occurrences p (g w) + weighted_count g p rest)%Z
  end.

(** No whitespace character stands directly before one of [.,!?;:]. *)
Fixpoint no_space_before_punct (s : string) : Prop :=
  match s with
  | EmptyString => True
  | String c s' =>
      match s' with
      | EmptyString => True
      | String d _ => ~ (is_space c = true /\ is_punct d = true)
      end /\ no_space_before_punct s'
  end.

(** Counter items in order of descending count. *)
Fixpoint descending (l : list (string * Z)) : Prop :=
  match l with
  | [] => True
  | x :: rest => Forall (fun y => (snd y <= snd x)%Z) rest /\ descending rest
  end.

(** The pieces the simple tokenizer encodes a word into and gets back when
    decoding: the word itself when it is in the vocabulary, else those of
    its characters that are. *)
Definition simple_pieces (token_to_id : dict string Z) (word : string) : list string :=
  if in_vocab token_to_id word then [word]
  else filter (in_vocab token_to_id) (chars word).

(** ** Notions for the learned merge sequence *)

(** [m] is the first key of greatest value in the dictionary: every entry
    before it has a strictly smaller value, every entry after it a value
    that is not greater. *)
Definition first_max (pf : dict (string * string) Z) (m : string * string) : Prop :=
  exists v before after,
    pf = before ++ (m, v) :: after /\
    Forall (fun kv => (snd kv < v)%Z) before /\
    Forall (fun kv => (snd kv <= v)%Z) after.

(** The pair counts of a corpus once the merges [learned] have been applied
    to the characters of each of its words. *)
Definition pair_counts (word_freqs : dict string Z) (learned : list (string * string))
  : result (dict (string * string) Z) :=
  count_pairs word_freqs (table (fun w => sweeps learned (chars w)) word_freqs).

(** The merges that follow the merges [prefix] when the rule of the loop is
    followed: as long as the vocabulary (seeded entries and one token per
    merge) is smaller than [target] and some pair is counted, the next merge
    is the first pair of greatest count; the sequence ends exactly when the
    vocabulary has reached [target] or no pair is left. *)
Fixpoint learned_from (word_freqs : dict string Z) (target : Z)
         (prefix rest : list (string * string)) : Prop :=
  match rest with
  | [] =>
      (target <= Z.of_nat (length (seed_vocab word_freqs) + length prefix))%Z \/
      pair_counts word_freqs prefix = Ok []
  | m :: rest' =>
      (Z.of_nat (length (seed_vocab word_freqs) + length prefix) < target)%Z /\
      (exists pf, pair_counts word_freqs prefix = Ok pf /\ first_max pf m) /\
      learned_from word_freqs target (prefix ++ [m]) rest'
  end.

(** * Properties *)

(** ** The model on small inputs *)

Example pre_tokenize_sentence :
  _pre_tokenize "The cat_sat, on  the mat!"
  = ["the"; "cat_sat"; ","; "on"; "the"; "mat"; "!"].
Proof. reflexivity. Qed.

Example count_words_example :
  count_words example_corpus
  = [("the", 3%Z); ("cat", 2%Z); ("sat", 1%Z); ("on", 1%Z); ("mat", 1%Z); ("ate", 1%Z)].
Proof. reflexivity. Qed.

Example seed_vocab_example :
  seed_vocab (count_words example_corpus)
  = ["<|pad|>"; "<|unk|>"; "<|bos|>"; "<|eos|>";
     "t"; "h"; "e"; "c"; "a"; "s"; "o"; "n"; "m"].
Proof. reflexivity. Qed.

Example merge_pass_overlap :
  merge_pass ("a", "a") "aa" ["a"; "a"; "a"; "b"] = ["aa"; "a"; "b"].
Proof. reflexivity. Qed.

Example example_merges :
  merges example_tokenizer
  = [("a", "t"); ("t", "h"); ("th", "e"); ("c", "at"); ("s", "at"); ("o", "n");
     ("m", "at"); ("at", "e")].
Proof. vm_compute. reflexivity. Qed.

Example encode_example :
  encode example_tokenizer "The cat zat!" = Ok [15%Z; 16%Z; 1%Z; 13%Z; 1%Z].
Proof. vm_compute. reflexivity. Qed.

Example decode_example :
  decode example_tokenizer [15%Z; 0%Z; 16%Z; 99%Z; 13%Z] = Ok "thecatat".
Proof. vm_compute. reflexivity. Qed.

Example decode_untrained :
  decode (__init__ 30) [4%Z] = Raise AttributeError.
Proof. reflexivity. Qed.

Example encode_untrained :
  encode (__init__ 30) "a" = Raise KeyError.
Proof. reflexivity. Qed.

(** ** Strings and lists *)

Lemma str_app_assoc (a b c : string) : ((a ++ b) ++ c = a ++ (b ++ c))%string.
Proof. induction a as [|x a IH]; simpl; [reflexivity | now rewrite IH]. Qed.

Lemma str_app_nil_r (a : string) : (a ++ "")%string = a.
Proof. induction a as [|x a IH]; simpl; [reflexivity | now rewrite IH]. Qed.

Lemma str_app_length (a b : string) :
  String.length (a ++ b)%string = String.length a + String.length b.
Proof. induction a as [|x a IH]; simpl; [reflexivity | now rewrite IH]. Qed.

Lemma str_forall_app f (a b : string) :
  str_forall f (a ++ b)%string = str_forall f a && str_forall f b.
Proof.
  induction a as [|x a IH]; simpl; [reflexivity|].
  now rewrite IH, andb_assoc.
Qed.

Lemma pair_eqb_eq (p q : string * string) : pair_eqb p q = true <-> p = q.
Proof.
  destruct p as [a b], q as [c d]; unfold pair_eqb; simpl.
  rewrite andb_true_iff, !String.eqb_eq.
  split; [intros [-> ->]; reflexivity | intros H; inversion H; auto].
Qed.

Lemma pair_eqb_refl (p : string * string) : pair_eqb p p = true.
Proof. now apply pair_eqb_eq. Qed.

Lemma str_in_In (x : string) (xs : list string) : str_in x xs = true <-> In x xs.
Proof.
  unfold str_in. rewrite existsb_exists. split.
  - intros [y [Hy E]]. apply String.eqb_eq in E. now subst.
  - intros H. exists x. split; [assumption | apply String.eqb_refl].
Qed.

Lemma str_in_not_In (x : string) (xs : list string) : str_in x xs = false <-> ~ In x xs.
Proof.
  rewrite <- str_in_In. destruct (str_in x xs); split; intros; congruence.
Qed.

(** Induction that follows the two-at-a-time recursion of the sweeps. *)
Lemma list_pair_ind (A : Type) (P : list A -> Prop) :
  P [] -> (forall a, P [a]) ->
  (forall a b l, P l -> P (b :: l) -> P (a :: b :: l)) ->
  forall l, P l.
Proof.
  intros H0 H1 H2.
  assert (H : forall l, P l /\ forall a, P (a :: l)).
  { induction l as [|b l [IHl IHbl]]; split; auto. }
  intro l. apply H.
Qed.

Lemma join_chars (w : string) : join (chars w) = w.
Proof. induction w as [|c w IH]; simpl; [reflexivity | now rewrite IH]. Qed.

Lemma join_app (l1 l2 : list string) : join (l1 ++ l2) = (join l1 ++ join l2)%string.
Proof.
  induction l1 as [|t l1 IH]; simpl; [reflexivity|].
  now rewrite IH, str_app_assoc.
Qed.

Lemma chars_app (a b : string) : chars (a ++ b)%string = chars a ++ chars b.
Proof. induction a as [|x a IH]; simpl; [reflexivity | now rewrite IH]. Qed.

Lemma chars_are_chars (w : string) : Forall is_char (chars w).
Proof. induction w; simpl; constructor; [reflexivity | assumption]. Qed.

Lemma chars_join (l : list string) : Forall is_char l -> chars (join l) = l.
Proof.
  induction 1 as [|t l Ht _ IH]; simpl; [reflexivity|].
  rewrite chars_app, IH. f_equal.
  destruct t as [|c [|d t]]; simpl in *; try discriminate. reflexivity.
Qed.

(** ** One sweep *)

Lemma merge_pass_single m tok a : merge_pass m tok [a] = [a].
Proof. reflexivity. Qed.

Lemma merge_pass_short m tok l : length l = 1 -> merge_pass m tok l = l.
Proof. destruct l as [|a [|b l]]; simpl; intros; try discriminate; reflexivity. Qed.

Lemma join_merge_pass m (l : list string) :
  join (merge_pass m (join_pair m) l) = join l.
Proof.
  induction l as [| a | a b l IHl IHbl] using list_pair_ind; try reflexivity.
  change (merge_pass m (join_pair m) (a :: b :: l)) with
    (if pair_eqb (a, b) m
     then join_pair m :: merge_pass m (join_pair m) l
     else a :: merge_pass m (join_pair m) (b :: l)).
  destruct (pair_eqb (a, b) m) eqn:E.
  - apply pair_eqb_eq in E. subst m. cbn [join]. rewrite IHl.
    unfold join_pair; simpl. apply str_app_assoc.
  - cbn [join]. rewrite IHbl. reflexivity.
Qed.

Lemma join_apply_merges ms (l : list string) : join (apply_merges ms l) = join l.
Proof.
  revert l. induction ms as [|m ms IH]; intro l; simpl; [reflexivity|].
  destruct (Nat.eqb _ 1).
  - apply join_merge_pass.
  - now rewrite IH, join_merge_pass.
Qed.

(** ** The pre-tokenizer *)

Section FindallFacts.
Variable cls : ascii -> bool.

Lemma span_cls_spec (s : string) :
  let (run, rest) := span_cls cls s in
  s = (run ++ rest)%string /\ str_forall cls run = true /\ head_not_cls cls rest.
Proof.
  induction s as [|c s IH]; simpl.
  - repeat split.
  - destruct (cls c) eqn:Ec.
    + destruct (span_cls cls s) as [run rest]. destruct IH as (-> & Hall & Hhd).
      simpl. rewrite Ec, Hall. repeat split. assumption.
    + simpl. repeat split. assumption.
Qed.

Lemma span_cls_run (run s : string) :
  str_forall cls run = true -> head_not_cls cls s ->
  span_cls cls (run ++ s)%string = (run, s).
Proof.
  intros Hall Hhd. induction run as [|c run IH]; simpl in *.
  - destruct s as [|d s]; simpl in *; [reflexivity | now rewrite Hhd].
  - apply andb_true_iff in Hall. destruct Hall as [Hc Hall].
    now rewrite Hc, IH.
Qed.

Lemma findall_fuel_sound (fuel : nat) :
  forall s, String.length s <= fuel -> Segments cls s (findall_fuel cls fuel s).
Proof.
  induction fuel as [|fuel IH]; intros s Hlen.
  - destruct s; simpl in Hlen; [constructor | lia].
  - destruct s as [|c s]; [constructor|].
    simpl in Hlen. unfold findall_fuel; fold (findall_fuel cls). unfold match_at.
    destruct (cls c) eqn:Ec.
    + pose proof (span_cls_spec (String c s)) as Hspan.
      destruct (span_cls cls (String c s)) as [run rest] eqn:Es.
      destruct Hspan as (Heq & Hall & Hhd).
      assert (Hrun : run <> EmptyString).
      { simpl in Es. rewrite Ec in Es. destruct (span_cls cls s).
        inversion Es. discriminate. }
      rewrite Heq. apply Seg_run; try assumption.
      apply IH. apply (f_equal String.length) in Heq.
      rewrite str_app_length in Heq. simpl in Heq.
      destruct run; [congruence | simpl in Heq; lia].
    + destruct (is_space c) eqn:Esp.
      * apply Seg_space; try assumption. apply IH. lia.
      * apply Seg_single; try assumption. apply IH. lia.
Qed.

Lemma Segments_findall_fuel (s : string) (segs : list string) :
  Segments cls s segs ->
  forall fuel, String.length s <= fuel -> findall_fuel cls fuel s = segs.
Proof.
  induction 1 as [| c s segs Hc Hsp _ IH | c s segs Hc Hsp _ IH
                  | run s segs Hne Hall Hhd _ IH]; intros fuel Hlen.
  - destruct fuel; reflexivity.
  - destruct fuel; simpl in Hlen; [lia|].
    simpl. rewrite Hc, Hsp. apply IH. lia.
  - destruct fuel; simpl in Hlen; [lia|].
    simpl. rewrite Hc, Hsp. f_equal. apply IH. lia.
  - destruct run as [|c run]; [congruence|].
    destruct fuel; simpl in Hlen; [lia|].
    pose proof (span_cls_run (String c run) s Hall Hhd) as Hspan.
    simpl in Hall. apply andb_true_iff in Hall. destruct Hall as [Hc Hall].
    change (findall_fuel cls (S fuel) (String c run ++ s)%string) with
      (match match_at cls (String c (run ++ s)%string) with
       | Some (m, rest) => m :: findall_fuel cls fuel rest
       | None => findall_fuel cls fuel (run ++ s)%string
       end).
    unfold match_at. rewrite Hc.
    change (String c (run ++ s)%string) with (String c run ++ s)%string. rewrite Hspan.
    f_equal. apply IH. rewrite str_app_length in Hlen. lia.
Qed.

(** The scanner computes the segments, and they are unique. *)
Lemma Segments_iff_findall (s : string) (segs : list string) :
  Segments cls s segs <-> segs = findall cls s.
Proof.
  split.
  - intros H. symmetry. now apply Segments_findall_fuel.
  - intros ->. now apply findall_fuel_sound.
Qed.

(** Fuel beyond the length of the text changes nothing. *)
Lemma findall_fuel_enough (fuel : nat) (s : string) :
  String.length s <= fuel -> findall_fuel cls fuel s = findall cls s.
Proof.
  intros H. apply Segments_findall_fuel; [|assumption].
  now apply findall_fuel_sound.
Qed.
End FindallFacts.

(** C9 (as amended): the pre-tokenizer lowercases the text and returns, in
    order, exactly the maximal runs of word characters (alphanumeric
    characters and the underscore) and the single characters that are
    neither word characters nor whitespace; whitespace is never a segment.
    The segments so described are unique, and they are what the function
    returns. *)
Theorem pre_tokenize_segments (text : string) (segs : list string) :
  Segments is_word (lower text) segs <-> segs = _pre_tokenize text.
Proof. apply Segments_iff_findall. Qed.

(** C9 (as stated) fails on an underscore between letters: the source keeps
    ["a_b"] as one segment, where runs of alphanumeric characters would
    give three. *)
Lemma pre_tokenize_underscore_joins :
  _pre_tokenize "a_b" = ["a_b"] /\
  alnum_pre_tokenize "a_b" = ["a"; "_"; "b"] /\
  ~ Segments is_alnum (lower "a_b") (_pre_tokenize "a_b").
Proof.
  split; [reflexivity|]. split; [reflexivity|].
  intros H. apply Segments_iff_findall in H. vm_compute in H. discriminate.
Qed.

(** C10: concatenating the symbols of a tokenized word gives the word
    back, whatever the merges are. *)
Theorem tokenize_word_join (self : BPETokenizer) (word : string) :
  join (_tokenize_word self word) = word.
Proof.
  unfold _tokenize_word. destruct (merges self) as [|m ms].
  - apply join_chars.
  - now rewrite join_apply_merges, join_chars.
Qed.

(** ** Decoding *)

Lemma decode_loop (inv : dict Z string) (self : BPETokenizer) :
  inv_vocab self = Some inv ->
  forall token_ids tokens,
    for_each
      (fun tokens id =>
         match inv_vocab self with
         | None => Raise AttributeError
         | Some inv =>
             match dict_get Z.eqb inv id with
             | Some token =>
                 if str_in token special_tokens then Ok tokens
                 else Ok (tokens ++ [token])
             | None => Ok tokens
             end
         end)
      token_ids tokens
    = Ok (tokens ++ filter (fun token => negb (str_in token special_tokens))
                           (flat_map (token_of inv) token_ids)).
Proof.
  intros Hinv. rewrite Hinv.
  induction token_ids as [|id ids IH]; intro tokens; cbn [for_each flat_map].
  - cbn [filter]. now rewrite app_nil_r.
  - unfold token_of at 1.
    destruct (dict_get Z.eqb inv id) as [token|]; cbn [app filter bind].
    + destruct (str_in token special_tokens); cbn [negb bind].
      * apply IH.
      * rewrite IH, <- app_assoc. reflexivity.
    + apply IH.
Qed.

(** C8: on a tokenizer that has an inverse vocabulary (one that was trained
    or loaded), [decode] returns the concatenation, without separators, of
    the tokens of the ids, the special tokens and the ids without an entry
    left out. *)
Theorem decode_drops_and_joins (self : BPETokenizer) (inv : dict Z string)
        (token_ids : list Z) :
  inv_vocab self = Some inv ->
  decode self token_ids = Ok (decode_described inv token_ids).
Proof.
  intros Hinv. unfold decode, decode_described.
  rewrite (decode_loop inv self Hinv). reflexivity.
Qed.

Lemma decode_drops_and_joins_witness :
  let self := {| vocab_size := 8;
                 vocab := [("<|pad|>", 0%Z); ("a", 4%Z); ("bc", 5%Z)];
                 merges := [("b", "c")];
                 inv_vocab := Some [(0%Z, "<|pad|>"); (4%Z, "a"); (5%Z, "bc")] |} in
  decode self [5%Z; 0%Z; 9%Z; 4%Z; 5%Z] = Ok "bcabc".
Proof.
  intro self.
  apply (decode_drops_and_joins self [(0%Z, "<|pad|>"); (4%Z, "a"); (5%Z, "bc")]
                                [5%Z; 0%Z; 9%Z; 4%Z; 5%Z]).
  reflexivity.
Defined.

(** ** The example corpus *)

(** C2 (as amended): on the example corpus with [vocab_size = 30] the first
    merge recorded is [(a, t)]: that pair is counted five times (in cat,
    cat, sat, mat and ate), the pair [(t, h)] three times; [(t, h)] is the
    second merge. *)
Theorem example_first_merge :
  exists pair_freqs t,
    count_pairs (count_words example_corpus) (seed_splits (count_words example_corpus))
      = Ok pair_freqs /\
    dict_get pair_eqb pair_freqs ("a", "t") = Some 5%Z /\
    dict_get pair_eqb pair_freqs ("t", "h") = Some 3%Z /\
    train (__init__ 30) example_corpus = Some (Ok t) /\
    nth_error (merges t) 0 = Some ("a", "t") /\
    nth_error (merges t) 1 = Some ("t", "h").
Proof.
  eexists. eexists.
  split; [vm_compute; reflexivity|].
  split; [reflexivity|]. split; [reflexivity|].
  split; [vm_compute; reflexivity|].
  split; reflexivity.
Qed.

(** C2 (as stated) fails: the first merge is not [(t, h)]. *)
Lemma example_first_merge_not_th :
  exists t,
    train (__init__ 30) example_corpus = Some (Ok t) /\
    nth_error (merges t) 0 <> Some ("t", "h").
Proof.
  eexists. split; [vm_compute; reflexivity|].
  simpl. discriminate.
Qed.

(** ** Dictionaries *)

Section DictFacts.
Context {K V : Type}.
Variable keqb : K -> K -> bool.
Hypothesis keqb_eq : forall a b, keqb a b = true <-> a = b.

Lemma keqb_refl (a : K) : keqb a a = true.
Proof. now apply keqb_eq. Qed.

Lemma keqb_neq (a b : K) : a <> b -> keqb a b = false.
Proof.
  intros H. destruct (keqb a b) eqn:E; [|reflexivity].
  apply keqb_eq in E. contradiction.
Qed.

Lemma dict_get_some_in (d : dict K V) (k : K) (v : V) :
  dict_get keqb d k = Some v -> In (k, v) d.
Proof.
  induction d as [|[k' v'] d IH]; simpl; [discriminate|].
  destruct (keqb k k') eqn:E.
  - apply keqb_eq in E. subst. intros H. inversion H. now left.
  - intros H. right. auto.
Qed.

Lemma dict_get_none (d : dict K V) (k : K) :
  ~ In k (keys d) -> dict_get keqb d k = None.
Proof.
  induction d as [|[k' v'] d IH]; simpl; [reflexivity|].
  intros H. rewrite keqb_neq by (intros ->; apply H; now left).
  apply IH. intros Hin. apply H. now right.
Qed.

Lemma dict_get_in_keys (d : dict K V) (k : K) :
  In k (keys d) -> exists v, dict_get keqb d k = Some v.
Proof.
  induction d as [|[k' v'] d IH]; simpl; [contradiction|].
  intros H. destruct (keqb k k') eqn:E; [eauto|].
  destruct H as [H|H]; [|auto].
  subst. rewrite keqb_refl in E. discriminate.
Qed.

Lemma dict_get_set_same (d : dict K V) (k : K) (v : V) :
  dict_get keqb (dict_set keqb d k v) k = Some v.
Proof.
  induction d as [|[k' v'] d IH]; simpl.
  - now rewrite keqb_refl.
  - destruct (keqb k k') eqn:E; simpl; rewrite E; [reflexivity | assumption].
Qed.

Lemma dict_set_new (d : dict K V) (k : K) (v : V) :
  ~ In k (keys d) -> dict_set keqb d k v = d ++ [(k, v)].
Proof.
  induction d as [|[k' v'] d IH]; simpl; [reflexivity|].
  intros H. rewrite keqb_neq by (intros ->; apply H; now left).
  f_equal. apply IH. intros Hin. apply H. now right.
Qed.

Lemma keys_dict_set_old (d : dict K V) (k : K) (v : V) :
  In k (keys d) -> keys (dict_set keqb d k v) = keys d.
Proof.
  induction d as [|[k' v'] d IH]; simpl; [contradiction|].
  intros H. destruct (keqb k k') eqn:E; simpl; [reflexivity|].
  f_equal. apply IH. destruct H as [H|H]; [|assumption].
  subst. rewrite keqb_refl in E. discriminate.
Qed.

Lemma In_dec_keys (d : dict K V) (k : K) : In k (keys d) \/ ~ In k (keys d).
Proof.
  destruct (dict_get keqb d k) as [v|] eqn:E.
  - left. apply dict_get_some_in in E. change k with (fst (k, v)).
    unfold keys. now apply in_map.
  - right. intros H. apply dict_get_in_keys in H. destruct H as [v H]. congruence.
Qed.

Lemma keys_dict_set (d : dict K V) (k : K) (v : V) :
  keys (dict_set keqb d k v) = keys d \/
  (~ In k (keys d) /\ keys (dict_set keqb d k v) = keys d ++ [k]).
Proof.
  destruct (In_dec_keys d k) as [H|H].
  - left. now apply keys_dict_set_old.
  - right. split; [assumption|]. rewrite dict_set_new by assumption.
    unfold keys. now rewrite map_app.
Qed.

Lemma NoDup_snoc (A : Type) (l : list A) (a : A) :
  NoDup l -> ~ In a l -> NoDup (l ++ [a]).
Proof.
  intros Hl Ha. apply NoDup_app; [assumption | repeat constructor; auto |].
  intros x Hx [<-|[]]. contradiction.
Qed.

Lemma NoDup_keys_dict_set (d : dict K V) (k : K) (v : V) :
  NoDup (keys d) -> NoDup (keys (dict_set keqb d k v)).
Proof.
  intros H. destruct (keys_dict_set d k v) as [->|[Hk ->]]; [assumption|].
  now apply NoDup_snoc.
Qed.

Lemma in_keys_dict_set (d : dict K V) (k k0 : K) (v : V) :
  In k0 (keys (dict_set keqb d k v)) -> In k0 (keys d) \/ k0 = k.
Proof.
  destruct (keys_dict_set d k v) as [->|[_ ->]]; [now left|].
  rewrite in_app_iff. simpl. intuition.
Qed.

(** Items with distinct keys make the dictionary that lists them. *)
Lemma fold_dict_set_distinct (items : list (K * V)) :
  forall d, NoDup (keys d ++ keys items) ->
  fold_left (fun d kv => dict_set keqb d (fst kv) (snd kv)) items d = d ++ items.
Proof.
  induction items as [|[k v] items IH]; intros d Hnd; simpl.
  - now rewrite app_nil_r.
  - simpl in Hnd. rewrite dict_set_new.
    + rewrite IH.
      * now rewrite <- app_assoc.
      * unfold keys in *. rewrite map_app, <- app_assoc. exact Hnd.
    + apply NoDup_remove_2 in Hnd. intros Hin. apply Hnd.
      apply in_or_app. now left.
Qed.

Lemma dict_of_items_distinct (items : list (K * V)) :
  NoDup (keys items) -> dict_of_items keqb items = items.
Proof.
  intros H. unfold dict_of_items. now rewrite fold_dict_set_distinct.
Qed.
Lemma dict_get_app_new (pre d : dict K V) (k : K) :
  ~ In k (keys pre) -> dict_get keqb (pre ++ d) k = dict_get keqb d k.
Proof.
  induction pre as [|[k' v'] pre IH]; simpl; [reflexivity|].
  intros H. rewrite keqb_neq by (intros ->; apply H; now left).
  apply IH. intros Hin. apply H. now right.
Qed.

Lemma dict_set_app_new (pre d : dict K V) (k : K) (v : V) :
  ~ In k (keys pre) -> dict_set keqb (pre ++ d) k v = pre ++ dict_set keqb d k v.
Proof.
  induction pre as [|[k' v'] pre IH]; simpl; [reflexivity|].
  intros H. rewrite keqb_neq by (intros ->; apply H; now left).
  f_equal. apply IH. intros Hin. apply H. now right.
Qed.
End DictFacts.

(** ** Sweeps are local *)

Lemma merge_pass_cons2 m tok a b (l : list string) :
  merge_pass m tok (a :: b :: l) =
  if pair_eqb (a, b) m then tok :: merge_pass m tok l
  else a :: merge_pass m tok (b :: l).
Proof. reflexivity. Qed.

(** A cut in the output of a sweep is a cut in its input: the sweep never
    looks back, and what it decides before the cut does not depend on what
    follows it. *)
Lemma merge_pass_split m tok (X : list string) :
  forall A B, merge_pass m tok X = A ++ B ->
  exists XA XB, X = XA ++ XB /\ merge_pass m tok XA = A /\ merge_pass m tok XB = B.
Proof.
  induction X as [| a | a b l IHl IHbl] using list_pair_ind; intros A B H.
  - simpl in H. symmetry in H. apply app_eq_nil in H. destruct H as [-> ->].
    exists [], []. auto.
  - destruct A as [|a0 A].
    + exists [], [a]. auto.
    + simpl in H. injection H as Ha HAB. symmetry in HAB.
      apply app_eq_nil in HAB. destruct HAB as [-> ->]. subst a0.
      exists [a], []. auto.
  - destruct A as [|a0 A].
    + exists [], (a :: b :: l). auto.
    + rewrite merge_pass_cons2 in H. destruct (pair_eqb (a, b) m) eqn:E.
      * simpl in H. injection H as Ha HAB. subst a0.
        destruct (IHl A B HAB) as (XA & XB & -> & HA & HB).
        exists (a :: b :: XA), XB. repeat split; [|assumption].
        rewrite merge_pass_cons2, E. now rewrite HA.
      * simpl in H. injection H as Ha HAB. subst a0.
        destruct (IHbl A B HAB) as (XA & XB & HX & HA & HB).
        exists (a :: XA), XB. split; [simpl; now rewrite HX|]. split; [|assumption].
        destruct XA as [|b' XA].
        -- simpl in HA. now subst A.
        -- simpl in HX. injection HX as Hb Hl. subst b'.
           rewrite merge_pass_cons2, E. now rewrite HA.
Qed.

Lemma sweeps_snoc ms m (l : list string) :
  sweeps (ms ++ [m]) l = merge_pass m (join_pair m) (sweeps ms l).
Proof. unfold sweeps. now rewrite fold_left_app. Qed.

Lemma sweeps_single ms (a : string) : sweeps ms [a] = [a].
Proof. induction ms as [|m ms IH]; simpl; [reflexivity | exact IH]. Qed.

Lemma join_sweeps ms (l : list string) : join (sweeps ms l) = join l.
Proof.
  induction ms as [|m ms IH] using rev_ind; [reflexivity|].
  now rewrite sweeps_snoc, join_merge_pass.
Qed.

(** A stretch of symbols found in a split is the split of its own text:
    how a text is cut into symbols does not depend on what surrounds it. *)
Lemma sweeps_local ms :
  forall l L R T,
    Forall is_char l -> sweeps ms l = L ++ R ++ T ->
    sweeps ms (chars (join R)) = R.
Proof.
  induction ms as [|m ms IH] using rev_ind; intros l L R T Hl H.
  - simpl in H. subst l. apply Forall_app in Hl. destruct Hl as [_ Hl].
    apply Forall_app in Hl. destruct Hl as [Hl _]. simpl. now apply chars_join.
  - rewrite sweeps_snoc in H.
    apply merge_pass_split in H. destruct H as (XL & XRT & Hsw & _ & HRT).
    apply merge_pass_split in HRT. destruct HRT as (XR & XT & -> & HR & _).
    rewrite sweeps_snoc. rewrite <- HR at 1. rewrite join_merge_pass.
    rewrite (IH l XL XR XT Hl Hsw). exact HR.
Qed.

Lemma adjacent_in (l : list string) (p q : string) :
  In (p, q) (adjacent l) -> exists L T, l = L ++ [p; q] ++ T.
Proof.
  induction l as [|a l IH]; simpl; [contradiction|].
  destruct l as [|b l]; [contradiction|].
  intros [H|H].
  - inversion H; subst. exists [], l. reflexivity.
  - destruct (IH H) as (L & T & ->). exists (a :: L), T. reflexivity.
Qed.

Lemma merge_pass_nonempty m (l : list string) :
  Forall nonempty l -> Forall nonempty (merge_pass m (join_pair m) l).
Proof.
  induction l as [| a | a b l IHl IHbl] using list_pair_ind; intros H; try assumption.
  rewrite merge_pass_cons2. inversion H as [|? ? Ha Hbl]; subst.
  inversion Hbl as [|? ? Hb Hl]; subst.
  destruct (pair_eqb (a, b) m) eqn:E.
  - constructor; [|auto]. apply pair_eqb_eq in E. subst m.
    unfold join_pair, nonempty in *; simpl. destruct a; [congruence | discriminate].
  - constructor; auto.
Qed.

Lemma sweeps_nonempty ms (w : string) : Forall nonempty (sweeps ms (chars w)).
Proof.
  induction ms as [|m ms IH] using rev_ind.
  - simpl. induction w; simpl; constructor; [discriminate | assumption].
  - rewrite sweeps_snoc. now apply merge_pass_nonempty.
Qed.

Lemma join_pair_length (p q : string) :
  nonempty p -> nonempty q -> 2 <= String.length (join_pair (p, q)).
Proof.
  unfold nonempty, join_pair; simpl. rewrite str_app_length.
  destruct p, q; simpl; try congruence; lia.
Qed.

(** A pair found side by side in the split of a word is the whole split of
    its own concatenation, and that concatenation lies inside the word. *)
Lemma adjacent_pair_facts ms (w p q : string) :
  In (p, q) (adjacent (sweeps ms (chars w))) ->
  sweeps ms (chars (join_pair (p, q))) = [p; q] /\
  nonempty p /\ nonempty q /\
  exists u v, w = (u ++ join_pair (p, q) ++ v)%string.
Proof.
  intros H. apply adjacent_in in H. destruct H as (L & T & H).
  split; [|split; [|split]].
  - replace (join_pair (p, q)) with (join [p; q])
      by (unfold join_pair; simpl; now rewrite str_app_nil_r).
    apply (sweeps_local ms (chars w) L [p; q] T); [apply chars_are_chars | exact H].
  - pose proof (sweeps_nonempty ms w) as Hne. rewrite H in Hne.
    apply Forall_app in Hne. destruct Hne as [_ Hne]. now inversion Hne.
  - pose proof (sweeps_nonempty ms w) as Hne. rewrite H in Hne.
    apply Forall_app in Hne. destruct Hne as [_ Hne].
    inversion Hne as [|? ? _ Hq]; subst. now inversion Hq.
  - exists (join L), (join T).
    rewrite <- (join_chars w), <- (join_sweeps ms (chars w)), H.
    rewrite !join_app. unfold join_pair; simpl.
    now rewrite str_app_nil_r.
Qed.

(** ** The tables training starts from *)

Lemma Segments_are_segments (s : string) (segs : list string) :
  Segments is_word s segs -> Forall is_segment segs.
Proof.
  induction 1 as [| | c s segs Hc Hsp _ IH | run s segs Hne Hall Hhd _ IH].
  - constructor.
  - assumption.
  - constructor; [|assumption]. split; [discriminate | now right].
  - constructor; [|assumption]. split; [assumption | now left].
Qed.

Lemma pre_tokenize_segment (text w : string) :
  In w (_pre_tokenize text) -> is_segment w.
Proof.
  intros H.
  assert (Hs : Segments is_word (lower text) (_pre_tokenize text))
    by now apply Segments_iff_findall.
  apply Segments_are_segments in Hs. rewrite Forall_forall in Hs. auto.
Qed.

Lemma counter_update_nodup (words : list string) :
  forall c, NoDup (keys c) -> NoDup (keys (counter_update c words)).
Proof.
  unfold counter_update. induction words as [|w words IH]; intros c H; simpl.
  - assumption.
  - apply IH. apply NoDup_keys_dict_set; [apply String.eqb_eq | assumption].
Qed.

Lemma counter_update_in (words : list string) (w : string) :
  forall c, In w (keys (counter_update c words)) -> In w (keys c) \/ In w words.
Proof.
  unfold counter_update. induction words as [|w0 words IH]; intros c H; simpl in *.
  - now left.
  - apply IH in H. destruct H as [H|H]; [|now right; right].
    apply in_keys_dict_set in H; [|apply String.eqb_eq].
    destruct H as [H| ->]; [now left | right; now left].
Qed.

Lemma count_words_acc_nodup (texts : list string) :
  forall c, NoDup (keys c) ->
  NoDup (keys (fold_left (fun word_freqs text =>
                            counter_update word_freqs (_pre_tokenize text)) texts c)).
Proof.
  induction texts as [|t texts IH]; intros c H; simpl; [assumption|].
  apply IH. now apply counter_update_nodup.
Qed.

Lemma count_words_nodup (texts : list string) : NoDup (keys (count_words texts)).
Proof. apply count_words_acc_nodup. constructor. Qed.

Lemma count_words_acc_in (texts : list string) (w : string) :
  forall c,
    In w (keys (fold_left (fun word_freqs text =>
                             counter_update word_freqs (_pre_tokenize text)) texts c)) ->
    In w (keys c) \/ exists text, In text texts /\ In w (_pre_tokenize text).
Proof.
  induction texts as [|t texts IH]; intros c H; simpl in *; [now left|].
  apply IH in H. destruct H as [H|(text & Ht & Hw)].
  - apply counter_update_in in H. destruct H as [H|H]; [now left|].
    right. exists t. auto.
  - right. exists text. auto.
Qed.

(** Every word of the frequency table is a pre-tokenized segment. *)
Lemma count_words_segments (texts : list string) :
  Forall is_segment (keys (count_words texts)).
Proof.
  apply Forall_forall. intros w H. apply count_words_acc_in in H.
  destruct H as [[]|(text & _ & Hw)]. now apply pre_tokenize_segment with text.
Qed.

Lemma add_chars_acc_seeded (cs : list string) :
  Forall is_char cs ->
  forall vocab, seeded vocab ->
  seeded (fold_left (fun vocab char => if str_in char vocab then vocab else vocab ++ [char])
                    cs vocab).
Proof.
  induction 1 as [|ch cs Hch _ IH]; intros vocab Hv; simpl; [assumption|].
  apply IH. destruct (str_in ch vocab) eqn:E; [assumption|].
  apply str_in_not_In in E. destruct Hv as [Hnd Hall]. split.
  - now apply NoDup_snoc.
  - apply Forall_app. split; [assumption|]. constructor; [now right | constructor].
Qed.

Lemma seed_vocab_acc_seeded (words : list string) :
  forall vocab, seeded vocab -> seeded (fold_left add_chars words vocab).
Proof.
  induction words as [|w words IH]; intros vocab Hv; simpl; [assumption|].
  apply IH. unfold add_chars. apply add_chars_acc_seeded; [apply chars_are_chars | assumption].
Qed.

Lemma special_tokens_seeded : seeded special_tokens.
Proof.
  split.
  - unfold special_tokens. repeat constructor; simpl; intuition discriminate.
  - apply Forall_forall. intros t H. now left.
Qed.

Lemma seed_vocab_seeded (word_freqs : dict string Z) : seeded (seed_vocab word_freqs).
Proof. apply seed_vocab_acc_seeded, special_tokens_seeded. Qed.

Lemma fold_left_prefix (A B : Type) (f : list A -> B -> list A) (bs : list B) :
  (forall l b, exists l', f l b = l ++ l') ->
  forall l, exists l', fold_left f bs l = l ++ l'.
Proof.
  intros Hf. induction bs as [|b bs IH]; intros l; simpl.
  - exists []. now rewrite app_nil_r.
  - destruct (Hf l b) as [l1 ->]. destruct (IH (l ++ l1)) as [l2 ->].
    exists (l1 ++ l2). now rewrite app_assoc.
Qed.

(** The special tokens stay at the head of the seeded vocabulary. *)
Lemma seed_vocab_prefix (word_freqs : dict string Z) :
  exists l, seed_vocab word_freqs = special_tokens ++ l.
Proof.
  unfold seed_vocab. apply fold_left_prefix. intros l w.
  unfold add_chars. apply fold_left_prefix. intros l0 ch.
  destruct (str_in ch l0); [exists []; now rewrite app_nil_r | eauto].
Qed.

Lemma seed_splits_eq (word_freqs : dict string Z) :
  NoDup (keys word_freqs) ->
  seed_splits word_freqs = map (fun wf => (fst wf, sweeps [] (chars (fst wf)))) word_freqs.
Proof.
  intros H. unfold seed_splits. rewrite dict_of_items_distinct.
  - unfold keys. now rewrite map_map.
  - apply String.eqb_eq.
  - unfold keys at 1. rewrite map_map. simpl. now rewrite map_id.
Qed.

(** ** One iteration of the merge loop *)

Lemma table_get g (word_freqs : dict string Z) (w : string) :
  In w (keys word_freqs) -> dict_get String.eqb (table g word_freqs) w = Some (g w).
Proof.
  induction word_freqs as [|[k v] wf IH]; simpl; [contradiction|].
  intros H. destruct (String.eqb w k) eqn:E.
  - apply String.eqb_eq in E. now subst.
  - apply IH. destruct H as [H|H]; [|assumption].
    subst. rewrite String.eqb_refl in E. discriminate.
Qed.

Lemma count_split_keys (split : list string) (freq : Z) (p : string * string) :
  forall pf, In p (keys (count_split pf split freq)) ->
  In p (keys pf) \/ In p (adjacent split).
Proof.
  unfold count_split. induction (adjacent split) as [|a l IH]; intros pf H; simpl in *.
  - now left.
  - apply IH in H. destruct H as [H|H]; [|now right; right].
    apply in_keys_dict_set in H; [|apply pair_eqb_eq].
    destruct H as [H| ->]; [now left | right; now left].
Qed.

Lemma count_pairs_acc g (word_freqs : dict string Z) (items : list (string * Z)) :
  (forall x, In x items -> In (fst x) (keys word_freqs)) ->
  forall pf, exists pf',
    for_each
      (fun pair_freqs wf =>
         match dict_get String.eqb (table g word_freqs) (fst wf) with
         | None => Raise KeyError
         | Some split =>
             if Nat.eqb (length split) 1 then Ok pair_freqs
             else Ok (count_split pair_freqs split (snd wf))
         end) items pf = Ok pf' /\
    forall p, In p (keys pf') ->
      In p (keys pf) \/ exists w, In w (keys word_freqs) /\ In p (adjacent (g w)).
Proof.
  induction items as [|[w f] items IH]; intros Hin pf; cbn [for_each].
  - exists pf. split; [reflexivity | now left].
  - assert (Hw : In w (keys word_freqs)) by (apply (Hin (w, f)); now left).
    cbn [fst snd]. rewrite (table_get g word_freqs w Hw).
    assert (Hrest : forall x, In x items -> In (fst x) (keys word_freqs))
      by (intros x Hx; apply Hin; now right).
    destruct (Nat.eqb (length (g w)) 1); cbn [bind].
    + apply IH. assumption.
    + destruct (IH Hrest (count_split pf (g w) f)) as (pf' & Heq & Hkeys).
      exists pf'. split; [assumption|]. intros p Hp.
      destruct (Hkeys p Hp) as [H|H]; [|now right].
      apply count_split_keys in H. destruct H as [H|H]; [now left|].
      right. exists w. auto.
Qed.

(** Pair counting never misses a split, and counts only pairs that stand
    side by side in the split of some word. *)
Lemma count_pairs_ok g (word_freqs : dict string Z) :
  exists pf,
    count_pairs word_freqs (table g word_freqs) = Ok pf /\
    forall p, In p (keys pf) ->
      exists w, In w (keys word_freqs) /\ In p (adjacent (g w)).
Proof.
  destruct (count_pairs_acc g word_freqs word_freqs) with (pf := @nil (string * string * Z))
    as (pf & Heq & Hkeys).
  - intros x Hx. unfold keys. now apply in_map.
  - exists pf. split; [exact Heq|]. intros p Hp.
    destruct (Hkeys p Hp) as [[]|H]. exact H.
Qed.

Lemma max_from_in (items : dict (string * string) Z) :
  forall best best_val, max_from best best_val items = best \/
                        In (max_from best best_val items) (keys items).
Proof.
  induction items as [|[k v] items IH]; intros best bv; simpl; [now left|].
  destruct (bv <? v)%Z.
  - destruct (IH k v) as [->|H]; [right; now left | right; now right].
  - destruct (IH best bv) as [->|H]; [now left | right; now right].
Qed.

Lemma max_key_in (pf : dict (string * string) Z) (p : string * string) :
  max_key pf = Some p -> In p (keys pf).
Proof.
  destruct pf as [|[k v] items]; simpl; [discriminate|].
  intros H. injection H as <-.
  destruct (max_from_in items k v) as [->|H]; [now left | now right].
Qed.

Lemma update_splits_acc g (bp : string * string) (tok : string)
      (post : dict string Z) :
  forall pre : dict string (list string),
    NoDup (keys post) ->
    (forall w, In w (keys post) -> ~ In w (keys pre)) ->
    for_each
      (fun splits word =>
         match dict_get String.eqb splits word with
         | None => Raise KeyError
         | Some split =>
             if Nat.eqb (length split) 1 then Ok splits
             else Ok (dict_set String.eqb splits word (merge_pass bp tok split))
         end)
      (keys post) (pre ++ table g post)
    = Ok (pre ++ table (fun w => merge_pass bp tok (g w)) post).
Proof.
  induction post as [|[w f] post IH]; intros pre Hnd Hpre; cbn [keys map for_each fst].
  - reflexivity.
  - assert (Hw : ~ In w (keys pre)) by (apply Hpre; now left).
    cbn [table map fst].
    rewrite (dict_get_app_new String.eqb String.eqb_eq) by assumption.
    cbn [dict_get]. rewrite String.eqb_refl.
    inversion Hnd as [|? ? Hw' Hnd']; subst.
    assert (Hnext : for_each
      (fun splits word =>
         match dict_get String.eqb splits word with
         | None => Raise KeyError
         | Some split =>
             if Nat.eqb (length split) 1 then Ok splits
             else Ok (dict_set String.eqb splits word (merge_pass bp tok split))
         end)
      (keys post) (pre ++ (w, merge_pass bp tok (g w)) :: table g post)
      = Ok (pre ++ (w, merge_pass bp tok (g w))
                :: table (fun w => merge_pass bp tok (g w)) post)).
    { replace (pre ++ (w, merge_pass bp tok (g w)) :: table g post)
        with ((pre ++ [(w, merge_pass bp tok (g w))]) ++ table g post)
        by (now rewrite <- app_assoc).
      replace (pre ++ (w, merge_pass bp tok (g w))
                   :: table (fun w => merge_pass bp tok (g w)) post)
        with ((pre ++ [(w, merge_pass bp tok (g w))])
                ++ table (fun w => merge_pass bp tok (g w)) post)
        by (now rewrite <- app_assoc).
      apply IH; [assumption|]. intros w0 Hw0. unfold keys. rewrite map_app, in_app_iff.
      simpl. intros [H|[H|[]]].
      - apply (Hpre w0); [now right | exact H].
      - subst. contradiction. }
    destruct (Nat.eqb (length (g w)) 1) eqn:E; cbn [bind].
    + apply Nat.eqb_eq in E. rewrite (merge_pass_short bp tok (g w) E) in Hnext.
      rewrite (merge_pass_short bp tok (g w) E). exact Hnext.
    + rewrite (dict_set_app_new String.eqb String.eqb_eq) by assumption.
      cbn [dict_set]. rewrite String.eqb_refl. exact Hnext.
Qed.

Lemma update_splits_ok g (bp : string * string) (tok : string)
      (word_freqs : dict string Z) :
  NoDup (keys word_freqs) ->
  update_splits word_freqs bp tok (table g word_freqs)
  = Ok (table (fun w => merge_pass bp tok (g w)) word_freqs).
Proof.
  intros H. apply (update_splits_acc g bp tok word_freqs []); [assumption|].
  intros w _ [].
Qed.

Lemma special_tokens_not_words (t : string) :
  In t special_tokens -> str_forall is_word t = false.
Proof.
  intros [<-|[<-|[<-|[<-|[]]]]]; reflexivity.
Qed.

(** The token a merge adds is not in the vocabulary yet. *)
Lemma new_token_fresh (word_freqs : dict string Z) (learned : list (string * string))
      (w p q : string) :
  is_segment w ->
  (forall m, In m learned -> sweeps learned (chars (join_pair m)) = [join_pair m]) ->
  In (p, q) (adjacent (sweeps learned (chars w))) ->
  ~ In (join_pair (p, q)) (seed_vocab word_freqs ++ map join_pair learned).
Proof.
  intros [_ Hseg] Htok Hadj Hin.
  destruct (adjacent_pair_facts learned w p q Hadj) as (Hsw & Hp & Hq & u & v & Hw).
  pose proof (join_pair_length p q Hp Hq) as Hlen.
  apply in_app_or in Hin. destruct Hin as [Hin|Hin].
  - destruct (seed_vocab_seeded word_freqs) as [_ Hall].
    rewrite Forall_forall in Hall. destruct (Hall _ Hin) as [Hsp|Hch].
    + apply special_tokens_not_words in Hsp.
      assert (Hlw : 2 <= String.length w).
      { rewrite Hw, !str_app_length. lia. }
      destruct Hseg as [Hword|Hone]; [|lia].
      rewrite Hw, !str_forall_app in Hword.
      apply andb_true_iff in Hword. destruct Hword as [_ Hword].
      apply andb_true_iff in Hword. destruct Hword as [Hword _]. congruence.
    + unfold is_char in Hch. lia.
  - apply in_map_iff in Hin. destruct Hin as (m & Hm & Hin).
    apply Htok in Hin. rewrite Hm, Hsw in Hin. discriminate.
Qed.

(** One pass through the loop body either ends the loop or completes a
    merge iteration that keeps the invariant, with one more merge and one
    more vocabulary entry. *)
Lemma train_iter_inv (target : Z) (word_freqs : dict string Z)
      (old learned : list (string * string)) (st : train_state) :
  NoDup (keys word_freqs) -> Forall is_segment (keys word_freqs) ->
  train_inv word_freqs old learned st ->
  train_iter target word_freqs st = Ok None \/
  exists best_pair st',
    train_iter target word_freqs st = Ok (Some st') /\
    train_inv word_freqs old (learned ++ [best_pair]) st' /\
    (Z.of_nat (length (ts_vocab st)) < target)%Z /\
    ts_vocab st' = ts_vocab st ++ [join_pair best_pair].
Proof.
  intros Hnd Hseg [Hm Hv Hs Ht Hvn]. unfold train_iter.
  destruct (Z.of_nat (length (ts_vocab st)) <? target)%Z eqn:Econd; [|now left].
  apply Z.ltb_lt in Econd. rewrite Hs.
  destruct (count_pairs_ok (fun w => sweeps learned (chars w)) word_freqs)
    as (pf & Hpf & Hkeys).
  unfold table in Hpf. rewrite Hpf. cbn [bind].
  destruct (max_key pf) as [[p q]|] eqn:Emax; [|now left].
  right. apply max_key_in in Emax. destruct (Hkeys _ Emax) as (w & Hw & Hadj).
  pose proof (update_splits_ok (fun w => sweeps learned (chars w)) (p, q)
                (join_pair (p, q)) word_freqs Hnd) as Hup.
  unfold table in Hup. rewrite Hup. cbn [bind].
  eexists. eexists. split; [reflexivity|].
  split; [|split; [assumption | reflexivity]].
  rewrite Forall_forall in Hseg.
  pose proof (new_token_fresh word_freqs learned w p q (Hseg w Hw) Ht Hadj) as Hfresh.
  destruct (adjacent_pair_facts learned w p q Hadj) as (Hsw & _).
  constructor; cbn [ts_merges ts_vocab ts_splits].
  - now rewrite Hm, app_assoc.
  - now rewrite Hv, map_app, app_assoc.
  - apply map_ext. intros a. now rewrite sweeps_snoc.
  - intros m Hin. rewrite sweeps_snoc. apply in_app_or in Hin.
    destruct Hin as [Hin|[<-|[]]].
    + now rewrite (Ht m Hin).
    + rewrite Hsw. rewrite merge_pass_cons2, pair_eqb_refl. reflexivity.
  - apply NoDup_snoc; [assumption|]. now rewrite Hv.
Qed.

Lemma train_start_inv (self : BPETokenizer) (word_freqs : dict string Z) :
  NoDup (keys word_freqs) ->
  train_inv word_freqs (merges self) [] (train_start self word_freqs).
Proof.
  intros Hnd. constructor; cbn [train_start ts_merges ts_vocab ts_splits map].
  - now rewrite app_nil_r.
  - now rewrite app_nil_r.
  - now apply seed_splits_eq.
  - intros m [].
  - apply seed_vocab_seeded.
Qed.

(** ** The merge loop ends *)

Lemma train_loop_inv (target : Z) (word_freqs : dict string Z)
      (old : list (string * string)) :
  NoDup (keys word_freqs) -> Forall is_segment (keys word_freqs) ->
  forall fuel learned st,
    train_inv word_freqs old learned st ->
    Z.to_nat (target - Z.of_nat (length (ts_vocab st))) < fuel ->
    exists more st',
      train_loop fuel target word_freqs st = Some (Ok st') /\
      train_inv word_freqs old (learned ++ more) st' /\
      (Z.of_nat (length (ts_vocab st'))
       <= Z.max target (Z.of_nat (length (ts_vocab st))))%Z.
Proof.
  intros Hnd Hseg. induction fuel as [|fuel IH]; intros learned st Hinv Hfuel; [lia|].
  cbn [train_loop].
  destruct (train_iter_inv target word_freqs old learned st Hnd Hseg Hinv)
    as [Hend|(bp & st1 & Hiter & Hinv1 & Hlt & Hvoc)].
  - rewrite Hend. exists [], st. rewrite app_nil_r.
    split; [reflexivity | split; [assumption | lia]].
  - rewrite Hiter.
    assert (Hlen : length (ts_vocab st1) = S (length (ts_vocab st)))
      by (rewrite Hvoc, length_app; simpl; lia).
    destruct (IH (learned ++ [bp]) st1 Hinv1) as (more & st' & Hloop & Hinv' & Hle).
    + rewrite Hlen. lia.
    + exists (bp :: more), st'. split; [assumption|].
      split; [now rewrite <- app_assoc in Hinv'|].
      rewrite Hlen in Hle. lia.
Qed.

(** Training returns: the loop ends within its fuel without raising, in a
    state that satisfies the invariant. *)
Lemma train_returns (self : BPETokenizer) (texts : list string) :
  exists learned st,
    train self texts = Some (Ok (train_finish self st)) /\
    train_inv (count_words texts) (merges self) learned st /\
    (Z.of_nat (length (ts_vocab st))
     <= Z.max (vocab_size self) (Z.of_nat (length (seed_vocab (count_words texts)))))%Z.
Proof.
  pose proof (count_words_nodup texts) as Hnd.
  pose proof (count_words_segments texts) as Hseg.
  destruct (train_loop_inv (vocab_size self) (count_words texts) (merges self) Hnd Hseg
              (train_fuel self (count_words texts)) []
              (train_start self (count_words texts))
              (train_start_inv self (count_words texts) Hnd))
    as (more & st & Hloop & Hinv & Hle).
  - unfold train_fuel. cbn [train_start ts_vocab]. lia.
  - exists more, st. unfold train. rewrite Hloop. auto.
Qed.

(** ** The trained vocabulary *)

Lemma enumerate_keys (l : list string) (n : nat) :
  keys (combine l (map Z.of_nat (seq n (length l)))) = l.
Proof.
  revert n. induction l as [|t l IH]; intro n; simpl; [reflexivity|].
  now rewrite IH.
Qed.

Lemma enumerate_values (l : list string) (n : nat) :
  values (combine l (map Z.of_nat (seq n (length l)))) = map Z.of_nat (seq n (length l)).
Proof.
  revert n. induction l as [|t l IH]; intro n; simpl; [reflexivity|].
  now rewrite IH.
Qed.

Lemma enumerate_length (l : list string) : length (enumerate_items l) = length l.
Proof.
  unfold enumerate_items. rewrite length_combine, length_map, length_seq. lia.
Qed.

(** Without duplicates in the list, the mapping is the enumeration itself. *)
Lemma train_finish_vocab (self : BPETokenizer) (st : train_state) :
  NoDup (ts_vocab st) ->
  vocab (train_finish self st) = enumerate_items (ts_vocab st).
Proof.
  intros H. cbn [train_finish vocab]. apply dict_of_items_distinct.
  - apply String.eqb_eq.
  - unfold enumerate_items. now rewrite enumerate_keys.
Qed.

Lemma train_inv_specials (word_freqs : dict string Z) old learned st :
  train_inv word_freqs old learned st ->
  exists l, ts_vocab st = special_tokens ++ l.
Proof.
  intros [_ Hv _ _ _]. destruct (seed_vocab_prefix word_freqs) as [l Hl].
  exists (l ++ map join_pair learned). now rewrite Hv, Hl, app_assoc.
Qed.

(** C7: after training, the ids of the vocabulary are exactly the integers
    from 0 to n - 1, n being the size of the vocabulary, numbered in
    vocabulary order, and the special tokens pad, unk, bos and eos have the
    ids 0, 1, 2 and 3. *)
Theorem trained_ids_contiguous (self : BPETokenizer) (texts : list string) :
  exists t,
    train self texts = Some (Ok t) /\
    values (vocab t) = map Z.of_nat (seq 0 (length (vocab t))) /\
    (forall i, In i (values (vocab t)) <-> (0 <= i < vocab_len t)%Z) /\
    dict_get String.eqb (vocab t) pad_token = Some 0%Z /\
    dict_get String.eqb (vocab t) unk_token = Some 1%Z /\
    dict_get String.eqb (vocab t) bos_token = Some 2%Z /\
    dict_get String.eqb (vocab t) eos_token = Some 3%Z.
Proof.
  destruct (train_returns self texts) as (learned & st & Htrain & Hinv & _).
  exists (train_finish self st). split; [assumption|].
  pose proof (train_finish_vocab self st (ti_nodup _ _ _ _ Hinv)) as Hvocab.
  assert (Hvals : values (vocab (train_finish self st))
                  = map Z.of_nat (seq 0 (length (vocab (train_finish self st))))).
  { rewrite Hvocab, enumerate_length. apply enumerate_values. }
  split; [exact Hvals|]. split.
  - intros i. rewrite Hvals. unfold vocab_len. rewrite in_map_iff. split.
    + intros (n & <- & Hn). apply in_seq in Hn. lia.
    + intros Hi. exists (Z.to_nat i). split; [lia|]. apply in_seq. lia.
  - destruct (train_inv_specials _ _ _ _ Hinv) as [l Hl].
    rewrite Hvocab, Hl. unfold enumerate_items. rewrite length_app.
    cbn. repeat split; reflexivity.
Qed.

(** ** Growth of the vocabulary *)

Lemma train_iter_grows (target : Z) (word_freqs : dict string Z) (st st' : train_state) :
  train_iter target word_freqs st = Ok (Some st') ->
  length (ts_vocab st') = S (length (ts_vocab st)) /\
  length (ts_merges st') = S (length (ts_merges st)) /\
  (Z.of_nat (length (ts_vocab st')) <= target)%Z.
Proof.
  unfold train_iter.
  destruct (Z.of_nat (length (ts_vocab st)) <? target)%Z eqn:Econd; [|discriminate].
  apply Z.ltb_lt in Econd.
  destruct (count_pairs word_freqs (ts_splits st)) as [pf|e]; cbn [bind]; [|discriminate].
  destruct (max_key pf) as [bp|]; [|discriminate].
  destruct (update_splits word_freqs bp (join_pair bp) (ts_splits st)) as [sp|e];
    cbn [bind]; [|discriminate].
  intros H. injection H as <-. cbn [ts_vocab ts_merges].
  rewrite !length_app. simpl. lia.
Qed.

(** C1 (as stated) fails when the corpus has more distinct characters than
    [vocab_size] leaves room for: with [vocab_size = 5] the corpus ["abc"]
    gives a vocabulary of seven entries. *)
Lemma train_vocab_exceeds_target :
  exists t,
    train (__init__ 5) ["abc"] = Some (Ok t) /\
    vocab_len t = 7%Z /\ (vocab_size t < vocab_len t)%Z.
Proof.
  eexists. split; [vm_compute; reflexivity|]. split; reflexivity.
Qed.

(** ** Determinism *)

Lemma train_iter_prior old (target : Z) (word_freqs : dict string Z) (st : train_state) :
  train_iter target word_freqs (prior old st) =
  match train_iter target word_freqs st with
  | Ok (Some st') => Ok (Some (prior old st'))
  | Ok None => Ok None
  | Raise e => Raise e
  end.
Proof.
  unfold train_iter. cbn [prior ts_vocab ts_splits ts_merges].
  destruct (Z.of_nat (length (ts_vocab st)) <? target)%Z; [|reflexivity].
  destruct (count_pairs word_freqs (ts_splits st)) as [pf|e]; cbn [bind]; [|reflexivity].
  destruct (max_key pf) as [bp|]; [|reflexivity].
  destruct (update_splits word_freqs bp (join_pair bp) (ts_splits st)) as [sp|e];
    cbn [bind]; [|reflexivity].
  unfold prior. cbn [ts_vocab ts_splits ts_merges]. now rewrite app_assoc.
Qed.

Lemma train_loop_prior old (target : Z) (word_freqs : dict string Z) (fuel : nat) :
  forall st,
    train_loop fuel target word_freqs (prior old st) =
    match train_loop fuel target word_freqs st with
    | Some (Ok st') => Some (Ok (prior old st'))
    | Some (Raise e) => Some (Raise e)
    | None => None
    end.
Proof.
  induction fuel as [|fuel IH]; intro st; cbn [train_loop]; [reflexivity|].
  rewrite train_iter_prior.
  destruct (train_iter target word_freqs st) as [[st'|]|e]; try reflexivity.
  apply IH.
Qed.

(** Training does not read what the tokenizer held before, except that the
    learned merges are appended to the merges already there: the result is
    that of a freshly constructed tokenizer of the same [vocab_size], with
    the earlier merges in front. *)
Lemma train_from_fresh (self : BPETokenizer) (texts : list string) :
  exists r0,
    train (__init__ (vocab_size self)) texts = Some (Ok r0) /\
    train self texts
    = Some (Ok {| vocab_size := vocab_size r0; vocab := vocab r0;
                  merges := merges self ++ merges r0; inv_vocab := inv_vocab r0 |}).
Proof.
  destruct (train_returns (__init__ (vocab_size self)) texts) as (l0 & st0 & H0 & _).
  unfold train in *.
  change (vocab_size (__init__ (vocab_size self))) with (vocab_size self) in *.
  replace (train_start self (count_words texts))
    with (prior (merges self) (train_start (__init__ (vocab_size self)) (count_words texts)))
    by (unfold prior, train_start; cbn; now rewrite app_nil_r).
  change (train_fuel self (count_words texts))
    with (train_fuel (__init__ (vocab_size self)) (count_words texts)).
  rewrite train_loop_prior.
  destruct (train_loop _ _ _ (train_start (__init__ (vocab_size self)) _))
    as [[st|e]|]; try discriminate.
  exists (train_finish (__init__ (vocab_size self)) st). split; reflexivity.
Qed.

(** ** Encoding *)

Lemma token_id_or_unk (self : BPETokenizer) (unk : Z) (token : string) :
  dict_get String.eqb (vocab self) unk_token = Some unk ->
  token_id self token = Ok (id_or_unk (vocab self) unk token).
Proof.
  intros H. unfold token_id, id_or_unk, dict_get_default.
  destruct (dict_get String.eqb (vocab self) token); [reflexivity|].
  now rewrite H.
Qed.

Lemma encode_word_loop (self : BPETokenizer) (unk : Z) :
  dict_get String.eqb (vocab self) unk_token = Some unk ->
  forall word_tokens tokens,
    for_each (fun tokens token => id <- token_id self token ;; Ok (tokens ++ [id]))
             word_tokens tokens
    = Ok (tokens ++ map (id_or_unk (vocab self) unk) word_tokens).
Proof.
  intros H. induction word_tokens as [|tok toks IH]; intro tokens; cbn [for_each map].
  - now rewrite app_nil_r.
  - rewrite (token_id_or_unk self unk tok H). cbn [bind].
    rewrite IH, <- app_assoc. reflexivity.
Qed.

(** With the unknown token in the vocabulary, encoding returns: each symbol
    gets its own id, or the id of the unknown token when it has none. *)
Lemma encode_total (self : BPETokenizer) (unk : Z) (text : string) :
  dict_get String.eqb (vocab self) unk_token = Some unk ->
  encode self text
  = Ok (map (id_or_unk (vocab self) unk)
            (flat_map (_tokenize_word self) (_pre_tokenize text))).
Proof.
  intros H. unfold encode.
  assert (Hloop : forall words tokens,
    for_each
      (fun tokens word =>
         for_each (fun tokens token => id <- token_id self token ;; Ok (tokens ++ [id]))
                  (_tokenize_word self word) tokens)
      words tokens
    = Ok (tokens ++ map (id_or_unk (vocab self) unk)
                        (flat_map (_tokenize_word self) words))).
  { induction words as [|w ws IH]; intro tokens; cbn [for_each flat_map map].
    - now rewrite app_nil_r.
    - rewrite (encode_word_loop self unk H). cbn [bind].
      rewrite IH, map_app, app_assoc. reflexivity. }
  apply Hloop.
Qed.

(** C6: on a trained tokenizer [encode] never raises: it returns the ids of
    the symbols of the pre-tokenized, tokenized words, and a symbol that is
    not in the vocabulary gets the id of the unknown token (which is 1). *)
Theorem trained_encode_never_raises (self : BPETokenizer) (texts : list string) :
  exists t,
    train self texts = Some (Ok t) /\
    dict_get String.eqb (vocab t) unk_token = Some 1%Z /\
    forall text,
      encode t text
      = Ok (map (id_or_unk (vocab t) 1)
                (flat_map (_tokenize_word t) (_pre_tokenize text))) /\
      forall token,
        dict_get String.eqb (vocab t) token = None ->
        id_or_unk (vocab t) 1 token = 1%Z.
Proof.
  destruct (train_returns self texts) as (learned & st & Htrain & Hinv & _).
  exists (train_finish self st). split; [assumption|].
  assert (Hunk : dict_get String.eqb (vocab (train_finish self st)) unk_token = Some 1%Z).
  { rewrite (train_finish_vocab self st (ti_nodup _ _ _ _ Hinv)).
    destruct (train_inv_specials _ _ _ _ Hinv) as [l ->]. reflexivity. }
  split; [exact Hunk|]. intros text. split.
  - now apply encode_total.
  - intros token Hnone. unfold id_or_unk, dict_get_default. now rewrite Hnone.
Qed.

(** ** Saving and loading *)

Lemma train_result_inverse (self : BPETokenizer) (texts : list string) (t : BPETokenizer) :
  train self texts = Some (Ok t) -> inv_vocab t = Some (invert (vocab t)).
Proof.
  unfold train.
  destruct (train_loop _ _ _ _) as [[st|e]|]; try discriminate.
  intros H. injection H as <-. reflexivity.
Qed.

Lemma load_save (self other : BPETokenizer) (path : string) (fs : filesystem) :
  inv_vocab self = Some (invert (vocab self)) ->
  load other path (save self path fs) = Ok self.
Proof.
  intros H. unfold load, save.
  rewrite (dict_get_set_same String.eqb String.eqb_eq). cbn.
  destruct self as [vs v m iv]. cbn in *. now rewrite H.
Qed.

(** C4: a trained tokenizer that is saved and loaded again (into any
    tokenizer object) encodes every text and decodes every id sequence as
    before. *)
Theorem load_save_same_behaviour (self other : BPETokenizer) (texts : list string)
        (t : BPETokenizer) (path : string) (fs : filesystem) :
  train self texts = Some (Ok t) ->
  exists t',
    load other path (save t path fs) = Ok t' /\
    (forall text, encode t' text = encode t text) /\
    (forall token_ids, decode t' token_ids = decode t token_ids).
Proof.
  intros Htrain. exists t. split; [|split; reflexivity].
  apply load_save. now apply train_result_inverse with self texts.
Qed.

Lemma load_save_same_behaviour_witness :
  exists t',
    load (__init__ 5000) "tokenizer.json" (save example_tokenizer "tokenizer.json" [])
      = Ok t' /\
    (forall text, encode t' text = encode example_tokenizer text) /\
    (forall token_ids, decode t' token_ids = decode example_tokenizer token_ids).
Proof.
  apply (load_save_same_behaviour (__init__ 30) (__init__ 5000) example_corpus
                                  example_tokenizer "tokenizer.json" []).
  vm_compute. reflexivity.
Defined.

(** C5 (as amended): loading a record that lacks [vocab], [merges] or
    [vocab_size] raises (a [KeyError]). *)
Theorem load_missing_field (self : BPETokenizer) (path : string) (fs : filesystem)
        (data : persisted) :
  dict_get String.eqb fs path = Some data ->
  p_vocab data = None \/ p_merges data = None \/ p_vocab_size data = None ->
  load self path fs = Raise KeyError.
Proof.
  intros Hfile Hmissing. unfold load. rewrite Hfile.
  destruct (p_vocab data); [|reflexivity].
  destruct (p_merges data); [|reflexivity].
  destruct (p_vocab_size data); [|reflexivity].
  destruct Hmissing as [H|[H|H]]; discriminate.
Qed.

Lemma load_missing_field_witness :
  load (__init__ 5000) "tokenizer.json"
       [("tokenizer.json",
         {| p_vocab := Some [("<|pad|>", 0%Z); ("a", 1%Z)];
            p_merges := None;
            p_vocab_size := Some 10%Z |})]
  = Raise KeyError.
Proof.
  apply (load_missing_field (__init__ 5000) "tokenizer.json" _
           {| p_vocab := Some [("<|pad|>", 0%Z); ("a", 1%Z)];
              p_merges := None;
              p_vocab_size := Some 10%Z |}).
  - reflexivity.
  - right. left. reflexivity.
Defined.

(** C5 (as stated) fails: a record with all three fields whose ids are not
    contiguous from 0 is loaded without complaint. *)
Lemma load_accepts_gaps :
  let data := {| p_vocab := Some [("a", 5%Z); ("b", 9%Z)];
                 p_merges := Some [];
                 p_vocab_size := Some 10%Z |} in
  ~ contiguous_ids [("a", 5%Z); ("b", 9%Z)] /\
  load (__init__ 5000) "tokenizer.json" [("tokenizer.json", data)]
  = Ok {| vocab_size := 10;
          vocab := [("a", 5%Z); ("b", 9%Z)];
          merges := [];
          inv_vocab := Some [(5%Z, "a"); (9%Z, "b")] |}.
Proof.
  split; [|reflexivity].
  intros H. destruct (H 5%Z) as [H5 _]. simpl in H5.
  assert (0 <= 5 < 2)%Z by (apply H5; now left). lia.
Qed.

(** * Further properties of the source *)

(** ** Tokenizing a word *)

Lemma apply_merges_sweeps ms (l : list string) : apply_merges ms l = sweeps ms l.
Proof.
  revert l. induction ms as [|m ms IH]; intro l; [reflexivity|].
  cbn [apply_merges sweeps fold_left].
  destruct (Nat.eqb (length (merge_pass m (join_pair m) l)) 1) eqn:E.
  - apply Nat.eqb_eq in E.
    destruct (merge_pass m (join_pair m) l) as [|a [|b r]]; try discriminate.
    symmetry. apply sweeps_single.
  - apply IH.
Qed.

(** X1: the early exits of [_tokenize_word] (no merges, or a single symbol
    left) never change its result: it is the word's characters swept once
    with every merge, in order. *)
Theorem tokenize_word_all_sweeps (self : BPETokenizer) (word : string) :
  _tokenize_word self word = sweeps (merges self) (chars word).
Proof.
  unfold _tokenize_word. destruct (merges self) as [|m ms] eqn:E; [reflexivity|].
  apply apply_merges_sweeps.
Qed.

Lemma merge_pass_head m tok (l : list string) :
  hd_error (merge_pass m tok l) = hd_error l \/ hd_error (merge_pass m tok l) = Some tok.
Proof.
  destruct l as [|a [|b l]]; try (now left).
  rewrite merge_pass_cons2. destruct (pair_eqb (a, b) m); [now right | now left].
Qed.

Lemma adjacent_cons (a : string) (l : list string) :
  adjacent (a :: l) = match hd_error l with
                      | Some b => (a, b) :: adjacent l
                      | None => []
                      end.
Proof. destruct l; reflexivity. Qed.

Lemma append_longer_l (p q : string) : nonempty q -> (p ++ q)%string <> p.
Proof.
  intros Hq H. apply (f_equal String.length) in H. rewrite str_app_length in H.
  destruct q; [now apply Hq | simpl in H; lia].
Qed.

Lemma append_longer_r (p q : string) : nonempty p -> (p ++ q)%string <> q.
Proof.
  intros Hp H. apply (f_equal String.length) in H. rewrite str_app_length in H.
  destruct p; [now apply Hp | simpl in H; lia].
Qed.

(** X2: a sweep merges every occurrence of its pair: when both symbols of
    the pair are non-empty, the pair no longer stands side by side anywhere
    in the result. *)
Theorem merge_pass_leaves_no_pair (p q : string) (split : list string) :
  nonempty p -> nonempty q ->
  ~ In (p, q) (adjacent (merge_pass (p, q) (join_pair (p, q)) split)).
Proof.
  intros Hp Hq.
  induction split as [| a | a b l IHl IHbl] using list_pair_ind; try (intros []).
  rewrite merge_pass_cons2. destruct (pair_eqb (a, b) (p, q)) eqn:E.
  - rewrite adjacent_cons.
    destruct (hd_error (merge_pass (p, q) (join_pair (p, q)) l)) as [x|]; [|intros []].
    intros [H|H]; [|now apply IHl].
    injection H as H _. now apply (append_longer_l p q Hq).
  - rewrite adjacent_cons.
    destruct (merge_pass_head (p, q) (join_pair (p, q)) (b :: l)) as [Hh|Hh];
      rewrite Hh; cbn [hd_error].
    + intros [H|H]; [|now apply IHbl].
      rewrite <- H, pair_eqb_refl in E. discriminate.
    + intros [H|H]; [|now apply IHbl].
      injection H as _ H. now apply (append_longer_r p q Hp).
Qed.

Lemma merge_pass_leaves_no_pair_witness :
  ~ In ("a", "a") (adjacent (merge_pass ("a", "a") (join_pair ("a", "a"))
                                        ["a"; "a"; "a"; "b"; "a"; "a"])).
Proof.
  apply (merge_pass_leaves_no_pair "a" "a" ["a"; "a"; "a"; "b"; "a"; "a"]);
    discriminate.
Defined.

(** ** The choice of the best pair *)

Lemma max_from_spec (items : dict (string * string) Z) :
  forall pre mid k v,
    Forall (fun kv => (snd kv < v)%Z) pre ->
    Forall (fun kv => (snd kv <= v)%Z) mid ->
    exists v' pre' post',
      pre ++ (k, v) :: mid ++ items = pre' ++ (max_from k v items, v') :: post' /\
      Forall (fun kv => (snd kv < v')%Z) pre' /\
      Forall (fun kv => (snd kv <= v')%Z) post'.
Proof.
  induction items as [|[k2 v2] items IH]; intros pre mid k v Hpre Hmid.
  - exists v, pre, mid. rewrite app_nil_r. auto.
  - cbn [max_from]. destruct (v <? v2)%Z eqn:E.
    + apply Z.ltb_lt in E.
      destruct (IH (pre ++ (k, v) :: mid) [] k2 v2) as (v' & pre' & post' & Heq & H1 & H2).
      * apply Forall_app. split.
        -- eapply Forall_impl; [|exact Hpre]. simpl. intros; lia.
        -- constructor; [simpl; lia|].
           eapply Forall_impl; [|exact Hmid]. simpl. intros; lia.
      * constructor.
      * exists v', pre', post'. split; [|auto].
        rewrite <- Heq. rewrite <- app_assoc. reflexivity.
    + apply Z.ltb_ge in E.
      destruct (IH pre (mid ++ [(k2, v2)]) k v Hpre) as (v' & pre' & post' & Heq & H1 & H2).
      * apply Forall_app. split; [assumption|]. constructor; [simpl; lia | constructor].
      * exists v', pre', post'. split; [|auto].
        rewrite <- Heq. rewrite <- app_assoc. reflexivity.
Qed.

(** X3: the pair [max(pair_freqs, key=pair_freqs.get)] selects has the
    greatest count, and among the pairs with that count it is the one that
    entered the dictionary first: every pair before it has a strictly
    smaller count, every pair after it a count not greater. *)
Theorem max_key_first_maximum (pair_freqs : dict (string * string) Z)
        (best : string * string) :
  max_key pair_freqs = Some best ->
  exists v before after,
    pair_freqs = before ++ (best, v) :: after /\
    Forall (fun kv => (snd kv < v)%Z) before /\
    Forall (fun kv => (snd kv <= v)%Z) after.
Proof.
  destruct pair_freqs as [|[k v] items]; [discriminate|].
  cbn [max_key]. intros H. injection H as <-.
  destruct (max_from_spec items [] [] k v) as (v' & pre' & post' & Heq & H1 & H2);
    [constructor | constructor |].
  exists v', pre', post'. auto.
Qed.

Lemma max_key_first_maximum_witness :
  exists v before after,
    [(("t", "h"), 3%Z); (("c", "a"), 2%Z); (("a", "t"), 5%Z); (("a", "x"), 5%Z)]
    = before ++ (("a", "t"), v) :: after /\
    Forall (fun kv => (snd kv < v)%Z) before /\
    Forall (fun kv => (snd kv <= v)%Z) after.
Proof.
  apply (max_key_first_maximum
           [(("t", "h"), 3%Z); (("c", "a"), 2%Z); (("a", "t"), 5%Z); (("a", "x"), 5%Z)]
           ("a", "t")).
  reflexivity.
Defined.

(** ** Pair frequencies *)

Section DictUpdate.
Context {K V : Type}.
Variable keqb : K -> K -> bool.
Hypothesis keqb_eq : forall a b, keqb a b = true <-> a = b.

Lemma dict_get_set_other (d : dict K V) (k p : K) (v : V) :
  keqb p k = false -> dict_get keqb (dict_set keqb d k v) p = dict_get keqb d p.
Proof.
  intros Hpk. induction d as [|[k' v'] d IH]; simpl.
  - now rewrite Hpk.
  - destruct (keqb k k') eqn:E; simpl.
    + apply keqb_eq in E. subst k'. now rewrite Hpk.
    + destruct (keqb p k'); [reflexivity | exact IH].
Qed.

Lemma dict_get_in_distinct (d : dict K V) (k : K) (v : V) :
  NoDup (keys d) -> In (k, v) d -> dict_get keqb d k = Some v.
Proof.
  induction d as [|[k' v'] d IH]; simpl; [contradiction|].
  intros Hnd [H|H].
  - injection H as -> ->. now rewrite (keqb_refl keqb keqb_eq).
  - inversion Hnd as [|? ? Hk' Hnd']; subst.
    rewrite (keqb_neq keqb keqb_eq).
    + now apply IH.
    + intros ->. apply Hk'. change k' with (fst (k', v)). now apply in_map.
Qed.
End DictUpdate.

Lemma count_add_get (pf : dict (string * string) Z) (k p : string * string) (f : Z) :
  dict_get_default pair_eqb
    (dict_set pair_eqb pf k (dict_get_default pair_eqb pf k 0 + f)%Z) p 0%Z
  = (dict_get_default pair_eqb pf p 0 + (if pair_eqb p k then f else 0))%Z.
Proof.
  unfold dict_get_default at 1 3. destruct (pair_eqb p k) eqn:E.
  - apply pair_eqb_eq in E. subst p.
    now rewrite (dict_get_set_same pair_eqb pair_eqb_eq).
  - rewrite (dict_get_set_other pair_eqb pair_eqb_eq) by assumption.
    destruct (dict_get pair_eqb pf p); lia.
Qed.

Lemma count_split_get (split : list string) (freq : Z) (p : string * string) :
  forall pf,
    dict_get_default pair_eqb (count_split pf split freq) p 0%Z
    = (dict_get_default pair_eqb pf p 0 + freq * occurrences p split)%Z.
Proof.
  unfold count_split, occurrences.
  induction (adjacent split) as [|a l IH]; intros pf; cbn [fold_left filter length].
  - simpl. lia.
  - rewrite IH, count_add_get. destruct (pair_eqb p a); cbn [length]; lia.
Qed.

Lemma occurrences_short (p : string * string) (split : list string) :
  length split = 1 -> occurrences p split = 0%Z.
Proof. destruct split as [|a [|b l]]; simpl; intros; try discriminate; reflexivity. Qed.

Lemma count_pairs_get (g : string -> list string) (splits : dict string (list string))
      (p : string * string) (items : list (string * Z)) :
  (forall x, In x items -> dict_get String.eqb splits (fst x) = Some (g (fst x))) ->
  forall pf, exists pf',
    for_each
      (fun pair_freqs wf =>
         match dict_get String.eqb splits (fst wf) with
         | None => Raise KeyError
         | Some split =>
             if Nat.eqb (length split) 1 then Ok pair_freqs
             else Ok (count_split pair_freqs split (snd wf))
         end) items pf = Ok pf' /\
    dict_get_default pair_eqb pf' p 0%Z
    = (dict_get_default pair_eqb pf p 0 + weighted_count g p items)%Z.
Proof.
  induction items as [|[w f] items IH]; intros Hget pf; cbn [for_each weighted_count].
  - exists pf. split; [reflexivity | lia].
  - rewrite (Hget (w, f)) by now left. cbn [fst snd].
    assert (Hrest : forall x, In x items ->
                              dict_get String.eqb splits (fst x) = Some (g (fst x)))
      by (intros x Hx; apply Hget; now right).
    destruct (Nat.eqb (length (g w)) 1) eqn:E; cbn [bind].
    + apply Nat.eqb_eq in E. destruct (IH Hrest pf) as (pf' & Heq & Hval).
      exists pf'. split; [assumption|].
      rewrite Hval, (occurrences_short p (g w) E). lia.
    + destruct (IH Hrest (count_split pf (g w) f)) as (pf' & Heq & Hval).
      exists pf'. split; [assumption|].
      rewrite Hval, count_split_get. lia.
Qed.

(** X4: when [splits] holds a split for every word of the frequency table,
    pair counting does not raise, and the count of a pair is the number of
    places where it stands side by side in the splits, each word weighted
    by its frequency (0 for a pair that occurs nowhere). *)
Theorem count_pairs_weighted (g : string -> list string) (word_freqs : dict string Z)
        (splits : dict string (list string)) :
  (forall w, In w (keys word_freqs) -> dict_get String.eqb splits w = Some (g w)) ->
  exists pair_freqs,
    count_pairs word_freqs splits = Ok pair_freqs /\
    forall p, dict_get_default pair_eqb pair_freqs p 0%Z = weighted_count g p word_freqs.
Proof.
  intros Hget.
  assert (Hitems : forall x, In x word_freqs ->
                             dict_get String.eqb splits (fst x) = Some (g (fst x))).
  { intros x Hx. apply Hget. unfold keys. now apply in_map. }
  assert (Hall : forall p, exists pf',
             count_pairs word_freqs splits = Ok pf' /\
             dict_get_default pair_eqb pf' p 0%Z = weighted_count g p word_freqs).
  { intros p. destruct (count_pairs_get g splits p word_freqs Hitems []) as (pf' & Heq & Hval).
    exists pf'. split; [exact Heq|]. rewrite Hval. reflexivity. }
  destruct (Hall ("", "")) as (pf & Heq & _).
  exists pf. split; [exact Heq|]. intros p.
  destruct (Hall p) as (pf' & Heq' & Hval). congruence.
Qed.

Lemma count_pairs_weighted_witness :
  exists pair_freqs,
    count_pairs [("aba", 2%Z); ("b", 7%Z); ("ab", 3%Z)]
                [("aba", ["a"; "b"; "a"]); ("b", ["b"]); ("ab", ["a"; "b"])]
      = Ok pair_freqs /\
    forall p, dict_get_default pair_eqb pair_freqs p 0%Z
              = weighted_count chars p [("aba", 2%Z); ("b", 7%Z); ("ab", 3%Z)].
Proof.
  apply (count_pairs_weighted chars [("aba", 2%Z); ("b", 7%Z); ("ab", 3%Z)]
           [("aba", ["a"; "b"; "a"]); ("b", ["b"]); ("ab", ["a"; "b"])]).
  intros w [<-|[<-|[<-|[]]]]; reflexivity.
Defined.

Example weighted_count_example :
  weighted_count chars ("a", "b") [("aba", 2%Z); ("b", 7%Z); ("ab", 3%Z)] = 5%Z.
Proof. reflexivity. Qed.

(** ** The shape of a trained tokenizer *)

Lemma enumerate_values_distinct (l : list string) : NoDup (values (enumerate_items l)).
Proof.
  unfold enumerate_items. rewrite enumerate_values.
  generalize 0 as a. induction (length l) as [|n IH]; intro a; simpl; constructor.
  - rewrite in_map_iff. intros (x & Hx & Hin). apply in_seq in Hin. lia.
  - apply IH.
Qed.

Lemma invert_distinct (v : dict string Z) :
  NoDup (values v) -> invert v = map (fun kv => (snd kv, fst kv)) v.
Proof.
  intros H. unfold invert. apply dict_of_items_distinct; [apply Z.eqb_eq|].
  unfold keys, values in *. rewrite map_map. exact H.
Qed.

(** Lookup in a dictionary with distinct keys and distinct values, and
    lookup in its inverse. *)
Lemma inverse_lookup (v : dict string Z) (token : string) (id : Z) :
  NoDup (keys v) -> NoDup (values v) ->
  dict_get String.eqb v token = Some id <->
  dict_get Z.eqb (map (fun kv => (snd kv, fst kv)) v) id = Some token.
Proof.
  intros Hk Hv. split; intros H.
  - apply (dict_get_in_distinct Z.eqb Z.eqb_eq).
    + unfold keys, values in *. now rewrite map_map.
    + apply (dict_get_some_in String.eqb String.eqb_eq) in H.
      apply in_map_iff. exists (token, id). auto.
  - apply (dict_get_some_in Z.eqb Z.eqb_eq) in H.
    apply in_map_iff in H. destruct H as ([t i] & Heq & Hin). simpl in Heq.
    injection Heq as -> ->.
    now apply (dict_get_in_distinct String.eqb String.eqb_eq).
Qed.

(** What [train] returns, spelled out: the vocabulary is the enumeration of
    a list without repetition, made of the seeded entries and one token per
    learned merge, and the inverse vocabulary is its mirror image. *)
Lemma trained_shape (self : BPETokenizer) (texts : list string) :
  exists t learned l,
    train self texts = Some (Ok t) /\
    l = seed_vocab (count_words texts) ++ map join_pair learned /\
    NoDup l /\
    vocab t = enumerate_items l /\
    merges t = merges self ++ learned /\
    inv_vocab t = Some (map (fun kv => (snd kv, fst kv)) (enumerate_items l)) /\
    vocab_size t = vocab_size self.
Proof.
  destruct (train_returns self texts) as (learned & st & Htrain & Hinv & _).
  pose proof (train_finish_vocab self st (ti_nodup _ _ _ _ Hinv)) as Hvocab.
  exists (train_finish self st), learned, (ts_vocab st).
  split; [assumption|]. split; [exact (ti_vocab _ _ _ _ Hinv)|].
  split; [exact (ti_nodup _ _ _ _ Hinv)|]. split; [assumption|].
  split; [exact (ti_merges _ _ _ _ Hinv)|]. split; [|reflexivity].
  change (inv_vocab (train_finish self st))
    with (Some (invert (vocab (train_finish self st)))).
  rewrite Hvocab, invert_distinct; [reflexivity | apply enumerate_values_distinct].
Qed.

Lemma enumerate_keys_items (l : list string) : keys (enumerate_items l) = l.
Proof. apply enumerate_keys. Qed.

(** X5: after training the vocabulary and the inverse vocabulary are
    inverse to each other: a token has id [i] exactly when id [i] has that
    token. *)
Theorem trained_vocab_inverse (self : BPETokenizer) (texts : list string) :
  exists t inv,
    train self texts = Some (Ok t) /\
    inv_vocab t = Some inv /\
    forall token id,
      dict_get String.eqb (vocab t) token = Some id <->
      dict_get Z.eqb inv id = Some token.
Proof.
  destruct (trained_shape self texts) as (t & learned & l & Ht & _ & Hnd & Hv & _ & Hi & _).
  exists t, (map (fun kv => (snd kv, fst kv)) (enumerate_items l)).
  split; [assumption|]. split; [assumption|].
  intros token id. rewrite Hv. apply inverse_lookup.
  - now rewrite enumerate_keys_items.
  - apply enumerate_values_distinct.
Qed.

Lemma enumerate_in_nth (l : list string) :
  forall n i x,
    nth_error l i = Some x ->
    In (x, Z.of_nat (n + i)) (combine l (map Z.of_nat (seq n (length l)))).
Proof.
  induction l as [|a l IH]; intros n i x H.
  - destruct i; discriminate.
  - destruct i as [|i]; simpl in *.
    + injection H as ->. left. now rewrite Nat.add_0_r.
    + right. replace (n + S i) with (S n + i) by lia. now apply IH.
Qed.

Lemma enumerate_get_nth (l : list string) (i : nat) (x : string) :
  NoDup l -> nth_error l i = Some x ->
  dict_get String.eqb (enumerate_items l) x = Some (Z.of_nat i).
Proof.
  intros Hnd H. apply (dict_get_in_distinct String.eqb String.eqb_eq).
  - now rewrite enumerate_keys_items.
  - apply (enumerate_in_nth l 0 i x H).
Qed.


Lemma id_or_unk_range (l : list string) (token : string) :
  1 < length l ->
  (0 <= id_or_unk (enumerate_items l) 1 token < Z.of_nat (length l))%Z.
Proof.
  intros Hlen. unfold id_or_unk, dict_get_default.
  destruct (dict_get String.eqb (enumerate_items l) token) as [i|] eqn:E; [|lia].
  apply (dict_get_some_in String.eqb String.eqb_eq) in E.
  assert (Hi : In i (values (enumerate_items l))).
  { change i with (snd (token, i)). unfold values. now apply in_map. }
  unfold enumerate_items in Hi. rewrite enumerate_values in Hi.
  apply in_map_iff in Hi. destruct Hi as (n & <- & Hn). apply in_seq in Hn. lia.
Qed.

(** X7: on a trained tokenizer every id [encode] returns is a valid id:
    it lies between 0 and the vocabulary size, so [decode] finds a token
    for it. *)
Theorem trained_encode_ids_valid (self : BPETokenizer) (texts : list string) :
  exists t,
    train self texts = Some (Ok t) /\
    forall text, exists ids,
      encode t text = Ok ids /\
      Forall (fun id => (0 <= id < vocab_len t)%Z) ids.
Proof.
  destruct (trained_shape self texts) as (t & learned & l & Ht & Hl & Hnd & Hv & _).
  exists t. split; [assumption|]. intros text.
  destruct (seed_vocab_prefix (count_words texts)) as [rest Hrest].
  assert (Hlen : 1 < length l).
  { rewrite Hl, Hrest, !length_app. simpl. lia. }
  assert (Hunk : dict_get String.eqb (vocab t) unk_token = Some 1%Z).
  { rewrite Hv. apply (enumerate_get_nth l 1); [assumption|].
    rewrite Hl, Hrest. reflexivity. }
  eexists. split; [apply (encode_total t 1 text Hunk)|].
  apply Forall_forall. intros id Hid. apply in_map_iff in Hid.
  destruct Hid as (token & <- & _). unfold vocab_len.
  rewrite Hv, enumerate_length. now apply id_or_unk_range.
Qed.

(** ** Decoding what was encoded *)

Lemma word_not_space (c : ascii) : is_word c = true -> is_space c = false.
Proof.
  destruct c as [[] [] [] [] [] [] [] []]; intros H; try reflexivity;
    vm_compute in H; discriminate.
Qed.

Lemma list_ascii_app (a b : string) :
  list_ascii_of_string (a ++ b)%string = list_ascii_of_string a ++ list_ascii_of_string b.
Proof. induction a as [|x a IH]; simpl; [reflexivity | now rewrite IH]. Qed.

Lemma str_forall_in f (s : string) (c : ascii) :
  str_forall f s = true -> In c (list_ascii_of_string s) -> f c = true.
Proof.
  induction s as [|x s IH]; simpl; [contradiction|].
  intros H [<-|Hin]; apply andb_true_iff in H; destruct H; auto.
Qed.

Lemma chars_in (w : string) (c : ascii) :
  In (String c EmptyString) (chars w) <-> In c (list_ascii_of_string w).
Proof.
  induction w as [|x w IH]; simpl; [reflexivity|].
  rewrite IH. split; intros [H|H]; auto; left; congruence.
Qed.

Lemma sweeps_part ms (w token : string) :
  In token (sweeps ms (chars w)) -> exists u v, w = (u ++ token ++ v)%string.
Proof.
  intros H. apply in_split in H. destruct H as (L & T & H).
  exists (join L), (join T).
  rewrite <- (join_chars w), <- (join_sweeps ms (chars w)), H.
  now rewrite join_app.
Qed.

Lemma tokenize_word_in_sweeps (self : BPETokenizer) (w token : string) :
  In token (_tokenize_word self w) -> In token (sweeps (merges self) (chars w)).
Proof.
  unfold _tokenize_word. destruct (merges self) as [|m ms]; [auto|].
  now rewrite apply_merges_sweeps.
Qed.

Lemma part_not_special (w u v token : string) :
  is_segment w -> w = (u ++ token ++ v)%string -> str_in token special_tokens = false.
Proof.
  intros [_ Hseg] Hw. apply str_in_not_In. intros Hin.
  destruct Hseg as [Hword|Hone].
  - rewrite Hw, !str_forall_app in Hword.
    apply andb_true_iff in Hword. destruct Hword as [_ Hword].
    apply andb_true_iff in Hword. destruct Hword as [Hword _].
    apply special_tokens_not_words in Hin. congruence.
  - rewrite Hw, !str_app_length in Hone.
    destruct Hin as [<-|[<-|[<-|[<-|[]]]]]; simpl in Hone; lia.
Qed.

(** The tokens of an encoded text are never special tokens. *)
Lemma text_tokens_not_special (self : BPETokenizer) (text : string) :
  Forall (fun token => str_in token special_tokens = false)
         (flat_map (_tokenize_word self) (_pre_tokenize text)).
Proof.
  apply Forall_forall. intros token H. apply in_flat_map in H.
  destruct H as (w & Hw & Htok).
  apply tokenize_word_in_sweeps, sweeps_part in Htok. destruct Htok as (u & v & Hpart).
  apply (part_not_special w u v token); [|assumption].
  now apply pre_tokenize_segment with text.
Qed.

Lemma decode_encode_tokens (l : list string) (tokens : list string) :
  NoDup l ->
  dict_get String.eqb (enumerate_items l) unk_token = Some 1%Z ->
  Forall (fun token => str_in token special_tokens = false) tokens ->
  filter (fun token => negb (str_in token special_tokens))
         (flat_map (token_of (map (fun kv => (snd kv, fst kv)) (enumerate_items l)))
                   (map (id_or_unk (enumerate_items l) 1) tokens))
  = filter (in_vocab (enumerate_items l)) tokens.
Proof.
  intros Hnd Hunk.
  assert (Hinv : forall token id,
             dict_get String.eqb (enumerate_items l) token = Some id ->
             dict_get Z.eqb (map (fun kv => (snd kv, fst kv)) (enumerate_items l)) id
             = Some token).
  { intros token id. apply inverse_lookup.
    - now rewrite enumerate_keys_items.
    - apply enumerate_values_distinct. }
  induction 1 as [|token tokens Hsp _ IH]; [reflexivity|].
  cbn [map flat_map filter]. rewrite filter_app, IH.
  unfold id_or_unk, dict_get_default, in_vocab, token_of.
  destruct (dict_get String.eqb (enumerate_items l) token) as [id|] eqn:E.
  - rewrite (Hinv token id E). cbn [filter]. rewrite Hsp. reflexivity.
  - rewrite (Hinv unk_token 1%Z Hunk). reflexivity.
Qed.

Lemma decode_encode_shape (t : BPETokenizer) (l rest : list string) :
  NoDup l -> l = special_tokens ++ rest ->
  vocab t = enumerate_items l ->
  inv_vocab t = Some (map (fun kv => (snd kv, fst kv)) (enumerate_items l)) ->
  forall text, exists ids,
    encode t text = Ok ids /\
    decode t ids
    = Ok (join (filter (in_vocab (vocab t))
                       (flat_map (_tokenize_word t) (_pre_tokenize text)))).
Proof.
  intros Hnd Hl Hv Hi text.
  assert (Hunk : dict_get String.eqb (enumerate_items l) unk_token = Some 1%Z).
  { apply (enumerate_get_nth l 1); [assumption|]. rewrite Hl. reflexivity. }
  eexists. split.
  - apply (encode_total t 1 text). now rewrite Hv.
  - unfold decode. rewrite (decode_loop _ t Hi). cbn [bind app].
    rewrite Hv, decode_encode_tokens; auto using text_tokens_not_special.
Qed.

(** X8: on a trained tokenizer, decoding the encoding of a text gives the
    concatenation of the symbols of its words that are in the vocabulary;
    the symbols that are not (encoded as the unknown token) are lost. *)
Theorem trained_decode_encode (self : BPETokenizer) (texts : list string) :
  exists t,
    train self texts = Some (Ok t) /\
    forall text, exists ids,
      encode t text = Ok ids /\
      decode t ids
      = Ok (join (filter (in_vocab (vocab t))
                         (flat_map (_tokenize_word t) (_pre_tokenize text)))).
Proof.
  destruct (trained_shape self texts) as (t & learned & l & Ht & Hl & Hnd & Hv & _ & Hi & _).
  destruct (seed_vocab_prefix (count_words texts)) as [rest Hrest].
  exists t. split; [assumption|].
  apply (decode_encode_shape t l (rest ++ map join_pair learned)); auto.
  now rewrite Hl, Hrest, app_assoc.
Qed.

(** ** The round trip on covered text *)

Lemma remove_spaces_app (a b : string) :
  remove_spaces (a ++ b)%string = (remove_spaces a ++ remove_spaces b)%string.
Proof.
  induction a as [|x a IH]; simpl; [reflexivity|].
  destruct (is_space x); simpl; now rewrite IH.
Qed.

Lemma remove_spaces_word_run (run : string) :
  str_forall is_word run = true -> remove_spaces run = run.
Proof.
  induction run as [|x run IH]; simpl; [reflexivity|].
  intros H. apply andb_true_iff in H. destruct H as [Hx Hrun].
  now rewrite (word_not_space x Hx), IH.
Qed.

(** The segments of a text, put together again, are the text without its
    whitespace. *)
Lemma Segments_join (s : string) (segs : list string) :
  Segments is_word s segs -> join segs = remove_spaces s.
Proof.
  induction 1 as [| c s segs Hc Hsp _ IH | c s segs Hc Hsp _ IH
                  | run s segs Hne Hall Hhd _ IH]; simpl.
  - reflexivity.
  - now rewrite Hsp.
  - now rewrite Hsp, IH.
  - now rewrite remove_spaces_app, remove_spaces_word_run, IH.
Qed.

Lemma Segments_chars (s : string) (segs : list string) :
  Segments is_word s segs ->
  forall seg c, In seg segs -> In c (list_ascii_of_string seg) ->
                In c (list_ascii_of_string s) /\ is_space c = false.
Proof.
  induction 1 as [| c0 s segs Hc Hsp _ IH | c0 s segs Hc Hsp _ IH
                  | run s segs Hne Hall Hhd _ IH]; intros seg c Hseg Hin.
  - destruct Hseg.
  - destruct (IH seg c Hseg Hin). split; [now right | assumption].
  - destruct Hseg as [<-|Hseg].
    + destruct Hin as [<-|[]]. split; [now left | assumption].
    + destruct (IH seg c Hseg Hin). split; [now right | assumption].
  - rewrite list_ascii_app, in_app_iff. destruct Hseg as [<-|Hseg].
    + split; [now left|]. apply word_not_space. now apply str_forall_in with run.
    + destruct (IH seg c Hseg Hin). split; [now right | assumption].
Qed.

Lemma Segments_cover (s : string) (segs : list string) :
  Segments is_word s segs ->
  forall c, In c (list_ascii_of_string s) -> is_space c = false ->
            exists seg, In seg segs /\ In c (list_ascii_of_string seg).
Proof.
  induction 1 as [| c0 s segs Hc Hsp _ IH | c0 s segs Hc Hsp _ IH
                  | run s segs Hne Hall Hhd _ IH]; intros c Hin Hns.
  - destruct Hin.
  - destruct Hin as [<-|Hin]; [congruence|]. apply IH; assumption.
  - destruct Hin as [<-|Hin].
    + exists (String c0 EmptyString). split; now left.
    + destruct (IH c Hin Hns) as (seg & Hseg & Hc'). exists seg. split; [now right | assumption].
  - rewrite list_ascii_app, in_app_iff in Hin. destruct Hin as [Hin|Hin].
    + exists run. split; [now left | assumption].
    + destruct (IH c Hin Hns) as (seg & Hseg & Hc'). exists seg. split; [now right | assumption].
Qed.

Lemma pre_tokenize_Segments (text : string) :
  Segments is_word (lower text) (_pre_tokenize text).
Proof. now apply Segments_iff_findall. Qed.

Lemma in_keys_dict_set_keep (d : dict string Z) (k k0 : string) (v : Z) :
  In k0 (keys d) \/ k0 = k -> In k0 (keys (dict_set String.eqb d k v)).
Proof.
  intros H. destruct (In_dec_keys String.eqb String.eqb_eq d k) as [Hk|Hk].
  - rewrite (keys_dict_set_old String.eqb String.eqb_eq) by assumption.
    destruct H as [H| ->]; assumption.
  - rewrite (dict_set_new String.eqb String.eqb_eq) by assumption.
    unfold keys. rewrite map_app, in_app_iff. simpl. intuition.
Qed.

Lemma counter_update_keep (words : list string) (w : string) :
  forall c, In w (keys c) \/ In w words -> In w (keys (counter_update c words)).
Proof.
  unfold counter_update. induction words as [|w0 words IH]; intros c H; simpl.
  - destruct H as [H|[]]. assumption.
  - apply IH. destruct H as [H|[->|H]].
    + left. apply in_keys_dict_set_keep. now left.
    + left. apply in_keys_dict_set_keep. now right.
    + now right.
Qed.

Lemma count_words_acc_keep (texts : list string) (w : string) :
  forall c,
    In w (keys c) \/ (exists text, In text texts /\ In w (_pre_tokenize text)) ->
    In w (keys (fold_left (fun word_freqs text =>
                             counter_update word_freqs (_pre_tokenize text)) texts c)).
Proof.
  induction texts as [|t texts IH]; intros c H; simpl.
  - destruct H as [H|(text & [] & _)]. assumption.
  - apply IH. destruct H as [H|(text & [->|Ht] & Hw)].
    + left. apply counter_update_keep. now left.
    + left. apply counter_update_keep. now right.
    + right. exists text. auto.
Qed.

Lemma add_char_step_keep (cs : list string) (x : string) :
  forall vocab,
    In x vocab \/ In x cs ->
    In x (fold_left (fun vocab char => if str_in char vocab then vocab else vocab ++ [char])
                    cs vocab).
Proof.
  induction cs as [|ch cs IH]; intros vocab H; simpl.
  - destruct H as [H|[]]. assumption.
  - apply IH. destruct (str_in ch vocab) eqn:E.
    + destruct H as [H|[->|H]]; [now left | left; now apply str_in_In | now right].
    + rewrite in_app_iff. simpl. destruct H as [H|[->|H]]; [left | left | right]; auto.
Qed.

Lemma seed_vocab_acc_keep (words : list string) (x : string) :
  forall vocab,
    In x vocab \/ (exists w, In w words /\ In x (chars w)) ->
    In x (fold_left add_chars words vocab).
Proof.
  induction words as [|w0 words IH]; intros vocab H; simpl.
  - destruct H as [H|(w & [] & _)]. assumption.
  - apply IH. unfold add_chars. destruct H as [H|(w & [->|Hw] & Hx)].
    + left. apply add_char_step_keep. now left.
    + left. apply add_char_step_keep. now right.
    + right. exists w. auto.
Qed.

(** Every non-whitespace character of a lowercased corpus document is in
    the seeded vocabulary. *)
Lemma corpus_chars_seeded (texts : list string) (doc : string) (c : ascii) :
  In doc texts -> In c (list_ascii_of_string (lower doc)) -> is_space c = false ->
  In (String c EmptyString) (seed_vocab (count_words texts)).
Proof.
  intros Hdoc Hc Hns.
  destruct (Segments_cover _ _ (pre_tokenize_Segments doc) c Hc Hns) as (seg & Hseg & Hin).
  apply seed_vocab_acc_keep. right. exists seg. split.
  - apply count_words_acc_keep. right. exists doc. auto.
  - now apply chars_in.
Qed.

Lemma merge_pass_tokens m tok (l : list string) (x : string) :
  In x (merge_pass m tok l) -> In x l \/ x = tok.
Proof.
  induction l as [| a | a b l IHl IHbl] using list_pair_ind; intros H; [now left.. | ].
  rewrite merge_pass_cons2 in H. destruct (pair_eqb (a, b) m).
  - destruct H as [<-|H]; [now right|].
    destruct (IHl H) as [Hin| ->]; [left; now right; right | now right].
  - destruct H as [<-|H]; [left; now left|].
    destruct (IHbl H) as [Hin| ->]; [left; now right | now right].
Qed.

Lemma sweeps_tokens ms (l : list string) (x : string) :
  In x (sweeps ms l) -> In x l \/ exists m, In m ms /\ x = join_pair m.
Proof.
  induction ms as [|m ms IH] using rev_ind; intros H; [now left|].
  rewrite sweeps_snoc in H. apply merge_pass_tokens in H. destruct H as [H| ->].
  - destruct (IH H) as [Hl|(m0 & Hm0 & ->)]; [now left|].
    right. exists m0. split; [apply in_or_app; now left | reflexivity].
  - right. exists m. split; [apply in_or_app; right; now left | reflexivity].
Qed.

Lemma join_flat_map (f : string -> list string) (ws : list string) :
  (forall w, join (f w) = w) -> join (flat_map f ws) = join ws.
Proof.
  intros Hf. induction ws as [|w ws IH]; simpl; [reflexivity|].
  now rewrite join_app, Hf, IH.
Qed.

Lemma filter_all (A : Type) (f : A -> bool) (l : list A) :
  Forall (fun x => f x = true) l -> filter f l = l.
Proof.
  induction 1 as [|x l Hx _ IH]; simpl; [reflexivity|]. now rewrite Hx, IH.
Qed.

(** X9: the round trip.  For a tokenizer that held no merges before it was
    trained, and a text whose non-whitespace characters, lowercased, all
    occur in the lowercased corpus, decoding the encoding of the text gives
    the lowercased text without its whitespace. *)
Theorem trained_round_trip (self : BPETokenizer) (texts : list string) (text : string) :
  merges self = [] ->
  (forall c, In c (list_ascii_of_string (lower text)) -> is_space c = false ->
             exists doc, In doc texts /\ In c (list_ascii_of_string (lower doc))) ->
  exists t ids,
    train self texts = Some (Ok t) /\
    encode t text = Ok ids /\
    decode t ids = Ok (remove_spaces (lower text)).
Proof.
  intros Hfresh Hcover.
  destruct (trained_shape self texts) as (t & learned & l & Ht & Hl & Hnd & Hv & Hm & Hi & _).
  destruct (seed_vocab_prefix (count_words texts)) as [rest Hrest].
  destruct (decode_encode_shape t l (rest ++ map join_pair learned) Hnd
              ltac:(now rewrite Hl, Hrest, app_assoc) Hv Hi text) as (ids & Henc & Hdec).
  exists t, ids. split; [assumption|]. split; [assumption|].
  rewrite Hdec. f_equal. rewrite filter_all.
  - rewrite join_flat_map.
    + apply Segments_join, pre_tokenize_Segments.
    + intros w. unfold _tokenize_word. destruct (merges t); [apply join_chars|].
      now rewrite join_apply_merges, join_chars.
  - apply Forall_forall. intros token Hin. apply in_flat_map in Hin.
    destruct Hin as (w & Hw & Htok). apply tokenize_word_in_sweeps in Htok.
    rewrite Hm, Hfresh in Htok. cbn [app] in Htok.
    assert (Hl_in : In token l).
    { rewrite Hl. apply in_or_app. apply sweeps_tokens in Htok.
      destruct Htok as [Hch|(m & Hm' & ->)]; [left | right; now apply in_map].
      destruct token as [|c [|d token]].
      - pose proof (chars_are_chars w) as Hall. rewrite Forall_forall in Hall.
        apply Hall in Hch. discriminate.
      - apply chars_in in Hch.
        destruct (Segments_chars _ _ (pre_tokenize_Segments text) w c Hw Hch) as [Hc Hns].
        destruct (Hcover c Hc Hns) as (doc & Hdoc & Hcd).
        now apply corpus_chars_seeded with doc.
      - pose proof (chars_are_chars w) as Hall. rewrite Forall_forall in Hall.
        apply Hall in Hch. discriminate. }
    unfold in_vocab. rewrite Hv.
    destruct (dict_get_in_keys String.eqb String.eqb_eq (enumerate_items l) token)
      as [id ->]; [now rewrite enumerate_keys_items | reflexivity].
Qed.

Lemma trained_round_trip_witness :
  exists t ids,
    train (__init__ 30) example_corpus = Some (Ok t) /\
    encode t "The  Cat sat" = Ok ids /\
    decode t ids = Ok (remove_spaces (lower "The  Cat sat")).
Proof.
  apply (trained_round_trip (__init__ 30) example_corpus "The  Cat sat").
  - reflexivity.
  - intros c Hc _. exists "the cat sat on the mat". split; [now left|].
    simpl in Hc. simpl. intuition.
Defined.

(** ** Degenerate corpora, untrained tokenizers, training again *)

Lemma train_keeps_vocab_size (self : BPETokenizer) (texts : list string) (t : BPETokenizer) :
  train self texts = Some (Ok t) -> vocab_size t = vocab_size self.
Proof.
  unfold train. destruct (train_loop _ _ _ _) as [[st|e]|]; try discriminate.
  intros H. injection H as <-. reflexivity.
Qed.

(** X10: a corpus without a word of two or more characters (the empty
    corpus among them) teaches no merge: training returns with the merges
    the tokenizer had and a vocabulary that is just the seeded one, however
    large [vocab_size] is. *)
Theorem train_without_pairs (self : BPETokenizer) (texts : list string) :
  (forall text w, In text texts -> In w (_pre_tokenize text) -> String.length w = 1) ->
  exists t,
    train self texts = Some (Ok t) /\
    merges t = merges self /\
    keys (vocab t) = seed_vocab (count_words texts).
Proof.
  intros Hshort.
  pose proof (count_words_nodup texts) as Hnd.
  assert (Hiter : train_iter (vocab_size self) (count_words texts)
                             (train_start self (count_words texts)) = Ok None).
  { unfold train_iter. destruct (_ <? _)%Z; [|reflexivity].
    cbn [train_start ts_splits]. rewrite (seed_splits_eq _ Hnd).
    destruct (count_pairs_ok (fun w => sweeps [] (chars w)) (count_words texts))
      as (pf & Hpf & Hkeys).
    unfold table in Hpf. rewrite Hpf. cbn [bind].
    destruct pf as [|[p v] pf]; [reflexivity|].
    destruct (Hkeys p (or_introl eq_refl)) as (w & Hw & Hadj).
    apply count_words_acc_in in Hw. destruct Hw as [[]|(text & Ht & Hw)].
    specialize (Hshort text w Ht Hw).
    destruct w as [|c [|d w]]; simpl in Hshort; try discriminate. destruct Hadj. }
  exists (train_finish self (train_start self (count_words texts))). split.
  - unfold train, train_fuel. cbn [train_loop]. now rewrite Hiter.
  - split; [reflexivity|].
    rewrite train_finish_vocab by apply seed_vocab_seeded.
    apply enumerate_keys_items.
Qed.

Lemma train_without_pairs_witness :
  exists t,
    train (__init__ 5000) ["a b, c!"; "  "] = Some (Ok t) /\
    merges t = merges (__init__ 5000) /\
    keys (vocab t) = seed_vocab (count_words ["a b, c!"; "  "]).
Proof.
  apply (train_without_pairs (__init__ 5000) ["a b, c!"; "  "]).
  intros text w [<-|[<-|[]]] Hw; simpl in Hw; intuition (subst; reflexivity).
Defined.

(** X11: a tokenizer that was neither trained nor loaded cannot be used:
    [encode] raises [KeyError] on every text that has a non-whitespace
    character (the unknown token itself is missing from the empty
    vocabulary), and [decode] raises [AttributeError] on every non-empty id
    list (the inverse vocabulary does not exist yet).  Only the empty
    inputs go through. *)
Theorem untrained_raises (n : Z) (text : string) (token_ids : list Z) :
  encode (__init__ n) text
  = match _pre_tokenize text with [] => Ok [] | _ :: _ => Raise KeyError end /\
  decode (__init__ n) token_ids
  = match token_ids with [] => Ok EmptyString | _ :: _ => Raise AttributeError end.
Proof.
  split.
  - unfold encode. pose proof (pre_tokenize_segment text) as Hseg.
    destruct (_pre_tokenize text) as [|w ws]; [reflexivity|].
    destruct (Hseg w (or_introl eq_refl)) as [Hne _].
    destruct w as [|c w]; [congruence|]. reflexivity.
  - destruct token_ids; reflexivity.
Qed.

(** X12: [train] does not reset [self.merges].  Training a tokenizer a
    second time on the same corpus gives the same vocabulary, but its merge
    list then holds the learned merges twice. *)
Theorem train_again_appends (self : BPETokenizer) (texts : list string) :
  exists t learned t2,
    train self texts = Some (Ok t) /\
    merges t = merges self ++ learned /\
    train t texts = Some (Ok t2) /\
    vocab t2 = vocab t /\
    merges t2 = merges self ++ learned ++ learned.
Proof.
  destruct (train_from_fresh self texts) as (r0 & H0 & Hself).
  pose proof (train_keeps_vocab_size _ _ _ H0) as Hvs. cbn in Hvs.
  eexists. exists (merges r0). eexists.
  split; [exact Hself|]. split; [reflexivity|].
  match goal with |- train ?t _ = _ /\ _ => destruct (train_from_fresh t texts) as (r1 & H1 & Ht) end.
  cbn [vocab_size] in H1. rewrite Hvs in H1. rewrite H0 in H1. injection H1 as <-.
  split; [exact Ht|]. cbn [vocab merges]. split; [reflexivity|].
  now rewrite app_assoc.
Qed.

(** ** The byte table *)

Lemma in_range_0 (n b : N) : (b < n)%N -> In b (range 0 n).
Proof.
  intros H. unfold range. apply in_map_iff. exists (N.to_nat b).
  split; [apply N2Nat.id|]. apply in_seq. lia.
Qed.

Lemma byte_keys_below : forallb (fun k => (k <? 256)%N) (keys byte_encoder) = true.
Proof. vm_compute. reflexivity. Qed.

Lemma byte_keys_all :
  forallb (fun k => existsb (N.eqb k) (keys byte_encoder)) (range 0 256) = true.
Proof. vm_compute. reflexivity. Qed.

Lemma byte_keys_distinct : keys byte_encoder = nodup N.eq_dec (keys byte_encoder).
Proof. vm_compute. reflexivity. Qed.

Lemma byte_round_trip_check :
  forallb (fun b => match dict_get N.eqb byte_encoder b with
                    | Some c => match dict_get N.eqb byte_decoder c with
                                | Some b' => N.eqb b' b
                                | None => false
                                end
                    | None => false
                    end) (range 0 256) = true.
Proof. vm_compute. reflexivity. Qed.

Lemma byte_decoder_check :
  forallb (fun kv => match dict_get N.eqb byte_encoder (snd kv) with
                     | Some c => N.eqb c (fst kv)
                     | None => false
                     end) byte_decoder = true.
Proof. vm_compute. reflexivity. Qed.

Lemma byte_values_check :
  forallb
    (fun b =>
       match dict_get N.eqb byte_encoder b with
       | Some c =>
           N.eqb c
             (if existsb (N.eqb b) printable_bytes then b
              else (256 + N.of_nat
                            (length (filter
                                       (fun x => negb (existsb (N.eqb x) printable_bytes))
                                       (range 0 b))))%N)
       | None => false
       end) (range 0 256) = true.
Proof. vm_compute. reflexivity. Qed.

Lemma byte_keys_iff (b : N) : In b (keys byte_encoder) <-> (b < 256)%N.
Proof.
  split.
  - pose proof byte_keys_below as H. rewrite forallb_forall in H.
    intros Hin. apply N.ltb_lt. apply H. exact Hin.
  - pose proof byte_keys_all as H. rewrite forallb_forall in H. intros Hb.
    specialize (H b (in_range_0 256 b Hb)). apply existsb_exists in H.
    destruct H as (x & Hx & E). apply N.eqb_eq in E. subst x. exact Hx.
Qed.

Lemma byte_round_trip (b : N) :
  (b < 256)%N ->
  exists c, dict_get N.eqb byte_encoder b = Some c /\
            dict_get N.eqb byte_decoder c = Some b.
Proof.
  pose proof byte_round_trip_check as H. rewrite forallb_forall in H. intros Hb.
  specialize (H b (in_range_0 256 b Hb)).
  destruct (dict_get N.eqb byte_encoder b) as [c|]; [|discriminate H].
  exists c. split; [reflexivity|].
  destruct (dict_get N.eqb byte_decoder c) as [b'|]; [|discriminate H].
  apply N.eqb_eq in H. subst b'. reflexivity.
Qed.

Lemma byte_decoder_image (c b : N) :
  dict_get N.eqb byte_decoder c = Some b -> dict_get N.eqb byte_encoder b = Some c.
Proof.
  pose proof byte_decoder_check as H. rewrite forallb_forall in H. intros Hget.
  apply (dict_get_some_in N.eqb N.eqb_eq) in Hget. specialize (H (c, b) Hget).
  cbn [fst snd] in H. clear Hget.
  destruct (dict_get N.eqb byte_encoder b) as [c'|]; [|discriminate H].
  apply N.eqb_eq in H. subst c'. reflexivity.
Qed.

(** X13: the byte table is a bijection.  Every byte 0..255 has exactly one
    entry in [byte_encoder] and nothing else has, [byte_decoder] takes the
    image of a byte back to the byte, and everything [byte_decoder] maps
    is the image of the byte it gives. *)
Theorem byte_encoder_bijection :
  NoDup (keys byte_encoder) /\
  (forall b, In b (keys byte_encoder) <-> (b < 256)%N) /\
  (forall b, (b < 256)%N ->
             exists c, dict_get N.eqb byte_encoder b = Some c /\
                       dict_get N.eqb byte_decoder c = Some b) /\
  (forall c b, dict_get N.eqb byte_decoder c = Some b ->
               dict_get N.eqb byte_encoder b = Some c).
Proof.
  split.
  - rewrite byte_keys_distinct. apply NoDup_nodup.
  - split; [exact byte_keys_iff|]. split; [exact byte_round_trip|].
    exact byte_decoder_image.
Qed.

(** X14: the values of the byte table.  A byte of the three printable
    ranges stands for itself; any other byte stands for the code point 256
    plus the number of non-printable bytes below it, so these get the code
    points from 256 on in ascending byte order. *)
Theorem byte_encoder_values (b : N) :
  (b < 256)%N ->
  dict_get N.eqb byte_encoder b
  = Some (if existsb (N.eqb b) printable_bytes then b
          else (256 + N.of_nat (length (filter (fun x => negb (existsb (N.eqb x) printable_bytes))
                                               (range 0 b))))%N).
Proof.
  intros Hb. pose proof byte_values_check as H. rewrite forallb_forall in H.
  specialize (H b (in_range_0 256 b Hb)).
  destruct (dict_get N.eqb byte_encoder b) as [c|]; [|discriminate H].
  apply N.eqb_eq in H. subst c. reflexivity.
Qed.

Lemma byte_encoder_values_witness :
  dict_get N.eqb byte_encoder 32%N
  = Some (if existsb (N.eqb 32%N) printable_bytes then 32%N
          else (256 + N.of_nat (length (filter (fun x => negb (existsb (N.eqb x) printable_bytes))
                                               (range 0 32))))%N).
Proof.
  apply (byte_encoder_values 32%N). reflexivity.
Defined.

Example byte_encoder_space : dict_get N.eqb byte_encoder 32%N = Some 288%N.
Proof. vm_compute. reflexivity. Qed.

(** ** SimpleSubwordTokenizer: the vocabulary *)

Lemma insert_by_count_in (x y : string * Z) (l : list (string * Z)) :
  In y (insert_by_count x l) <-> y = x \/ In y l.
Proof.
  induction l as [|z l IH]; simpl; [intuition|].
  destruct (snd x <? snd z)%Z; simpl; rewrite ?IH; intuition.
Qed.

Lemma sorted_by_count_in (c : dict string Z) (y : string * Z) :
  In y (fold_right insert_by_count [] c) <-> In y c.
Proof.
  induction c as [|x c IH]; simpl; [reflexivity|].
  rewrite insert_by_count_in, IH. intuition.
Qed.

Lemma insert_by_count_keys_in (x : string * Z) (l : list (string * Z)) (k : string) :
  In k (keys (insert_by_count x l)) <-> k = fst x \/ In k (keys l).
Proof.
  unfold keys. rewrite !in_map_iff. split.
  - intros (y & <- & Hy). apply (proj1 (insert_by_count_in x y l)) in Hy.
    destruct Hy as [->|Hy].
    + now left.
    + right. exists y. auto.
  - intros [->|(y & <- & Hy)].
    + exists x. split; [reflexivity|]. apply insert_by_count_in. now left.
    + exists y. split; [reflexivity|]. apply insert_by_count_in. now right.
Qed.

Lemma insert_by_count_distinct (x : string * Z) (l : list (string * Z)) :
  NoDup (keys (x :: l)) -> NoDup (keys (insert_by_count x l)).
Proof.
  induction l as [|z l IH]; intros H; [exact H|].
  simpl. destruct (snd x <? snd z)%Z; [|exact H].
  simpl in H. inversion H as [|? ? Hx Hzl]; subst. inversion Hzl as [|? ? Hz Hl]; subst.
  simpl. constructor.
  - rewrite insert_by_count_keys_in. intros [Heq|Hin]; [|contradiction].
    apply Hx. left. now symmetry.
  - apply IH. simpl. constructor; [|assumption]. intros Hin. apply Hx. now right.
Qed.

Lemma sorted_by_count_distinct (c : dict string Z) :
  NoDup (keys c) -> NoDup (keys (fold_right insert_by_count [] c)).
Proof.
  induction c as [|x c IH]; intros H; [constructor|].
  simpl. apply insert_by_count_distinct. simpl in *.
  inversion H as [|? ? Hx Hc]; subst. constructor.
  - intros Hin. apply Hx. unfold keys in *. apply in_map_iff in Hin.
    destruct Hin as (y & Hy & Hin). apply (proj1 (sorted_by_count_in c y)) in Hin.
    rewrite <- Hy. now apply in_map.
  - now apply IH.
Qed.

Lemma firstn_distinct (A : Type) (n : nat) (l : list A) : NoDup l -> NoDup (firstn n l).
Proof.
  intros H. rewrite <- (firstn_skipn n l) in H. now apply NoDup_app_remove_r in H.
Qed.

Lemma firstn_in (A : Type) (n : nat) (l : list A) (x : A) : In x (firstn n l) -> In x l.
Proof.
  intros H. rewrite <- (firstn_skipn n l). apply in_or_app. now left.
Qed.

(** The words [most_common] returns are distinct words of the counter. *)
Lemma most_common_words (n : nat) (c : dict string Z) :
  NoDup (keys c) ->
  NoDup (map fst (most_common n c)) /\
  forall w, In w (map fst (most_common n c)) -> In w (keys c).
Proof.
  intros H. unfold most_common. split.
  - rewrite <- firstn_map. apply firstn_distinct. now apply sorted_by_count_distinct.
  - intros w Hw. apply in_map_iff in Hw. destruct Hw as (y & <- & Hy).
    apply firstn_in in Hy. apply (proj1 (sorted_by_count_in c y)) in Hy.
    unfold keys. now apply in_map.
Qed.

Lemma simple_special_not_segment (w : string) :
  is_segment w -> ~ In w Simple.special_tokens.
Proof.
  intros [_ [Hword|Hone]] [<-|[<-|[<-|[<-|[]]]]]; discriminate.
Qed.

Lemma findall_segment (s w : string) : In w (findall is_word s) -> is_segment w.
Proof.
  intros H.
  assert (Hs : Segments is_word s (findall is_word s)) by now apply Segments_iff_findall.
  apply Segments_are_segments in Hs. rewrite Forall_forall in Hs. auto.
Qed.

Lemma simple_char_loop_distinct (cs : list ascii) :
  forall vocab,
    NoDup vocab ->
    NoDup (fold_left
             (fun vocab ch =>
                let char := String ch EmptyString in
                if negb (str_in char vocab) && negb (is_space ch)
                then vocab ++ [char] else vocab)
             cs vocab).
Proof.
  induction cs as [|ch cs IH]; intros vocab H; simpl; [assumption|].
  apply IH. destruct (str_in (String ch EmptyString) vocab) eqn:E; simpl; [assumption|].
  destruct (is_space ch); simpl; [assumption|].
  apply NoDup_snoc; [assumption | now apply str_in_not_In].
Qed.

(** The list [build_vocab] numbers: the special tokens first, and no token
    twice. *)
Lemma simple_build_list_shape (text : string) :
  NoDup (Simple.build_list text) /\
  exists rest, Simple.build_list text = Simple.special_tokens ++ rest.
Proof.
  unfold Simple.build_list. split.
  - apply simple_char_loop_distinct.
    pose proof (counter_update_nodup (findall is_word (lower text)) [] (NoDup_nil _)) as Hnd.
    destruct (most_common_words 3000 _ Hnd) as [Hwords Hin].
    apply NoDup_app.
    + repeat constructor; simpl; intuition discriminate.
    + exact Hwords.
    + intros w Hsp Hw. apply Hin, counter_update_in in Hw. destruct Hw as [[]|Hw].
      apply findall_segment in Hw. now apply (simple_special_not_segment w).
  - match goal with
    | |- exists rest, fold_left ?f ?cs (?sp ++ ?words) = _ =>
        destruct (fold_left_prefix _ _ f cs) with (l := sp ++ words) as [l' Hl']
    end.
    + intros l ch. cbn zeta. destruct (negb _ && negb _); [eauto|].
      exists []. now rewrite app_nil_r.
    + eexists. rewrite Hl', <- app_assoc. reflexivity.
Qed.

(** X15: the vocabulary [build_vocab] leaves.  The ids are the integers
    0 .. n-1 in vocabulary order, [vocab_size] is n, the special tokens
    PAD, UNK, BOS and EOS have the ids 0 to 3, and [token_to_id] and
    [id_to_token] are inverse to each other. *)
Theorem simple_build_vocab_ids (text : string) :
  let t := Simple.build_vocab text in
  values (Simple.token_to_id t)
  = map Z.of_nat (seq 0 (length (Simple.token_to_id t))) /\
  Simple.vocab_size t = Z.of_nat (length (Simple.token_to_id t)) /\
  dict_get String.eqb (Simple.token_to_id t) Simple.pad_token = Some 0%Z /\
  dict_get String.eqb (Simple.token_to_id t) Simple.unk_token = Some 1%Z /\
  dict_get String.eqb (Simple.token_to_id t) Simple.bos_token = Some 2%Z /\
  dict_get String.eqb (Simple.token_to_id t) Simple.eos_token = Some 3%Z /\
  forall token id,
    dict_get String.eqb (Simple.token_to_id t) token = Some id <->
    dict_get Z.eqb (Simple.id_to_token t) id = Some token.
Proof.
  destruct (simple_build_list_shape text) as [Hnd [rest Hrest]].
  assert (Ht2i : Simple.token_to_id (Simple.build_vocab text)
                 = enumerate_items (Simple.build_list text)).
  { cbn [Simple.build_vocab Simple.token_to_id]. apply dict_of_items_distinct.
    - apply String.eqb_eq.
    - now rewrite enumerate_keys_items. }
  assert (Hi2t : Simple.id_to_token (Simple.build_vocab text)
                 = map (fun kv => (snd kv, fst kv)) (enumerate_items (Simple.build_list text))).
  { change (Simple.id_to_token (Simple.build_vocab text))
      with (invert (Simple.token_to_id (Simple.build_vocab text))).
    rewrite Ht2i. apply invert_distinct, enumerate_values_distinct. }
  cbn zeta. rewrite Hi2t, Ht2i.
  split; [rewrite enumerate_length; apply enumerate_values|].
  split; [cbn [Simple.build_vocab Simple.vocab_size]; now rewrite enumerate_length|].
  assert (Hnth : forall i tok, nth_error Simple.special_tokens i = Some tok ->
                               dict_get String.eqb (enumerate_items (Simple.build_list text)) tok
                               = Some (Z.of_nat i)).
  { intros i tok Hi. apply enumerate_get_nth; [assumption|].
    rewrite Hrest, nth_error_app1; [assumption|].
    apply nth_error_Some. congruence. }
  split; [exact (Hnth 0 _ eq_refl)|]. split; [exact (Hnth 1 _ eq_refl)|].
  split; [exact (Hnth 2 _ eq_refl)|]. split; [exact (Hnth 3 _ eq_refl)|].
  intros token id. apply inverse_lookup.
  - now rewrite enumerate_keys_items.
  - apply enumerate_values_distinct.
Qed.

(** ** SimpleSubwordTokenizer: encoding and decoding *)

Lemma simple_encode_char_loop (self : Simple.SimpleSubwordTokenizer) (unk : Z) :
  dict_get String.eqb (Simple.token_to_id self) Simple.unk_token = Some unk ->
  forall cs ids,
    for_each (Simple.encode_char self) cs ids
    = Ok (ids ++ map (id_or_unk (Simple.token_to_id self) unk) cs).
Proof.
  intros Hunk. induction cs as [|ch cs IH]; intro ids; cbn [for_each map].
  - now rewrite app_nil_r.
  - unfold Simple.encode_char at 1, id_or_unk at 1, dict_get_default.
    destruct (dict_get String.eqb (Simple.token_to_id self) ch) as [id|]; cbn [bind].
    + rewrite IH, <- app_assoc. reflexivity.
    + rewrite Hunk. cbn [bind]. rewrite IH, <- app_assoc. reflexivity.
Qed.

(** With the unknown token in the vocabulary, the simple [encode] returns:
    a word in the vocabulary gives its id, any other word the ids of its
    characters, the id of the unknown token standing in for a character
    that has none. *)
Lemma simple_encode_total (self : Simple.SimpleSubwordTokenizer) (unk : Z) (text : string) :
  dict_get String.eqb (Simple.token_to_id self) Simple.unk_token = Some unk ->
  Simple.encode self text
  = Ok (map (id_or_unk (Simple.token_to_id self) unk)
            (flat_map (fun w => if in_vocab (Simple.token_to_id self) w then [w] else chars w)
                      (findall is_word (lower text)))).
Proof.
  intros Hunk. unfold Simple.encode.
  assert (Hloop : forall words ids,
    for_each
      (fun ids word =>
         match dict_get String.eqb (Simple.token_to_id self) word with
         | Some id => Ok (ids ++ [id])
         | None => for_each (Simple.encode_char self) (chars word) ids
         end) words ids
    = Ok (ids ++ map (id_or_unk (Simple.token_to_id self) unk)
                     (flat_map (fun w => if in_vocab (Simple.token_to_id self) w
                                         then [w] else chars w) words))).
  { induction words as [|w ws IH]; intro ids; cbn [for_each flat_map map].
    - now rewrite app_nil_r.
    - rewrite map_app. unfold in_vocab at 1.
      destruct (dict_get String.eqb (Simple.token_to_id self) w) as [id|] eqn:E; cbn [bind].
      + rewrite IH. cbn [map]. unfold id_or_unk at 2, dict_get_default. rewrite E.
        now rewrite <- app_assoc.
      + rewrite (simple_encode_char_loop self unk Hunk). cbn [bind].
        rewrite IH, <- app_assoc. reflexivity. }
  apply Hloop.
Qed.

Lemma simple_kept_tokens (self : Simple.SimpleSubwordTokenizer) (ids : list Z) :
  Simple.kept_tokens self ids
  = filter (fun token => negb (str_in token Simple.special_tokens))
           (flat_map (token_of (Simple.id_to_token self)) ids).
Proof.
  unfold Simple.kept_tokens.
  assert (H : forall ids acc,
    fold_left
      (fun tokens id =>
         match dict_get Z.eqb (Simple.id_to_token self) id with
         | Some token =>
             if str_in token Simple.special_tokens then tokens else tokens ++ [token]
         | None => tokens
         end) ids acc
    = acc ++ filter (fun token => negb (str_in token Simple.special_tokens))
                    (flat_map (token_of (Simple.id_to_token self)) ids)).
  { clear ids. induction ids as [|id ids IH]; intro acc; cbn [fold_left flat_map].
    - cbn [filter]. now rewrite app_nil_r.
    - rewrite IH, filter_app. unfold token_of at 2.
      destruct (dict_get Z.eqb (Simple.id_to_token self) id) as [token|]; cbn [filter app].
      + destruct (str_in token Simple.special_tokens); cbn [negb app].
        * reflexivity.
        * now rewrite <- app_assoc.
      + reflexivity. }
  apply H.
Qed.

Lemma keep_in_vocab_tokens (specials : list string) (unk : string) (l tokens : list string) :
  NoDup l ->
  dict_get String.eqb (enumerate_items l) unk = Some 1%Z ->
  str_in unk specials = true ->
  Forall (fun token => str_in token specials = false) tokens ->
  filter (fun token => negb (str_in token specials))
         (flat_map (token_of (map (fun kv => (snd kv, fst kv)) (enumerate_items l)))
                   (map (id_or_unk (enumerate_items l) 1) tokens))
  = filter (in_vocab (enumerate_items l)) tokens.
Proof.
  intros Hnd Hunk Hsp.
  assert (Hinv : forall token id,
             dict_get String.eqb (enumerate_items l) token = Some id ->
             dict_get Z.eqb (map (fun kv => (snd kv, fst kv)) (enumerate_items l)) id
             = Some token).
  { intros token id. apply inverse_lookup.
    - now rewrite enumerate_keys_items.
    - apply enumerate_values_distinct. }
  induction 1 as [|token tokens Hns _ IH]; [reflexivity|].
  cbn [map flat_map filter]. rewrite filter_app, IH.
  unfold id_or_unk, dict_get_default, in_vocab, token_of.
  destruct (dict_get String.eqb (enumerate_items l) token) as [id|] eqn:E.
  - rewrite (Hinv token id E). cbn [filter]. rewrite Hns. reflexivity.
  - rewrite (Hinv unk 1%Z Hunk). cbn [filter]. rewrite Hsp. reflexivity.
Qed.

Lemma filter_flat_map (A B : Type) (f : B -> bool) (g : A -> list B) (l : list A) :
  filter f (flat_map g l) = flat_map (fun x => filter f (g x)) l.
Proof.
  induction l as [|x l IH]; simpl; [reflexivity|]. now rewrite filter_app, IH.
Qed.

Lemma simple_tokens_not_special (t2i : dict string Z) (s : string) :
  Forall (fun token => str_in token Simple.special_tokens = false)
         (flat_map (fun w => if in_vocab t2i w then [w] else chars w) (findall is_word s)).
Proof.
  apply Forall_forall. intros token H. apply in_flat_map in H.
  destruct H as (w & Hw & Htok). apply str_in_not_In.
  destruct (in_vocab t2i w).
  - destruct Htok as [<-|[]]. apply simple_special_not_segment. now apply findall_segment with s.
  - pose proof (chars_are_chars w) as Hall. rewrite Forall_forall in Hall.
    apply Hall in Htok. intros [<-|[<-|[<-|[<-|[]]]]]; discriminate.
Qed.

Lemma simple_built (text : string) :
  exists l,
    NoDup l /\
    Simple.build_list text = l /\
    Simple.token_to_id (Simple.build_vocab text) = enumerate_items l /\
    Simple.id_to_token (Simple.build_vocab text)
    = map (fun kv => (snd kv, fst kv)) (enumerate_items l) /\
    dict_get String.eqb (enumerate_items l) Simple.unk_token = Some 1%Z /\
    1 < length l.
Proof.
  destruct (simple_build_list_shape text) as [Hnd [rest Hrest]].
  exists (Simple.build_list text).
  assert (Ht2i : Simple.token_to_id (Simple.build_vocab text)
                 = enumerate_items (Simple.build_list text)).
  { cbn [Simple.build_vocab Simple.token_to_id]. apply dict_of_items_distinct.
    - apply String.eqb_eq.
    - now rewrite enumerate_keys_items. }
  split; [assumption|]. split; [reflexivity|]. split; [assumption|]. split; [|split].
  - change (Simple.id_to_token (Simple.build_vocab text))
      with (invert (Simple.token_to_id (Simple.build_vocab text))).
    rewrite Ht2i. apply invert_distinct, enumerate_values_distinct.
  - apply (enumerate_get_nth _ 1); [assumption|]. rewrite Hrest. reflexivity.
  - rewrite Hrest, length_app. simpl. lia.
Qed.

(** X16: after [build_vocab], the simple [encode] never raises, and every
    id it returns is a valid id (between 0 and [vocab_size]). *)
Theorem simple_encode_ids_valid (text text' : string) :
  exists ids,
    Simple.encode (Simple.build_vocab text) text' = Ok ids /\
    Forall (fun id => (0 <= id < Simple.vocab_size (Simple.build_vocab text))%Z) ids.
Proof.
  destruct (simple_built text) as (l & Hnd & Hl & Ht2i & _ & Hunk & Hlen).
  eexists. split.
  - apply (simple_encode_total _ 1 text'). now rewrite Ht2i.
  - apply Forall_forall. intros id Hid. apply in_map_iff in Hid.
    destruct Hid as (token & <- & _).
    cbn [Simple.build_vocab Simple.vocab_size]. rewrite Ht2i, Hl.
    now apply id_or_unk_range.
Qed.

(** X17: decoding what the simple tokenizer encoded.  After [build_vocab],
    [decode(encode(text'))] is the space-joined sequence of the pieces of
    the words of [text'] (a word of the vocabulary as it is, any other
    word as those of its characters that are in the vocabulary) with the
    whitespace before [.,!?;:] removed. *)
Theorem simple_decode_encode (text text' : string) :
  exists ids,
    Simple.encode (Simple.build_vocab text) text' = Ok ids /\
    Simple.decode (Simple.build_vocab text) ids
    = sub_space_punct
        (String.concat " "
           (flat_map (simple_pieces (Simple.token_to_id (Simple.build_vocab text)))
                     (findall is_word (lower text')))).
Proof.
  destruct (simple_built text) as (l & Hnd & Hl & Ht2i & Hi2t & Hunk & Hlen).
  eexists. split.
  - apply (simple_encode_total _ 1 text'). now rewrite Ht2i.
  - unfold Simple.decode. rewrite simple_kept_tokens, Hi2t, Ht2i.
    rewrite (keep_in_vocab_tokens Simple.special_tokens Simple.unk_token);
      auto using simple_tokens_not_special.
    rewrite filter_flat_map. f_equal. f_equal.
    apply flat_map_ext. intros w. unfold simple_pieces.
    destruct (in_vocab (enumerate_items l) w) eqn:E; [|reflexivity].
    cbn [filter]. now rewrite E.
Qed.

(** X18: a simple tokenizer constructed without text, or with the empty
    text, has no vocabulary at all: [encode] raises [KeyError] on every
    text that has a non-whitespace character, and [decode] returns the
    empty string whatever the ids. *)
Theorem simple_unbuilt (text : string) (ids : list Z) :
  Simple.__init__ (Some EmptyString) = Simple.__init__ None /\
  Simple.encode (Simple.__init__ None) text
  = match findall is_word (lower text) with [] => Ok [] | _ :: _ => Raise KeyError end /\
  Simple.decode (Simple.__init__ None) ids = EmptyString.
Proof.
  split; [reflexivity|]. split.
  - unfold Simple.encode. pose proof (findall_segment (lower text)) as Hseg.
    destruct (findall is_word (lower text)) as [|w ws]; [reflexivity|].
    destruct (Hseg w (or_introl eq_refl)) as [Hne _].
    destruct w as [|c w]; [congruence|]. reflexivity.
  - unfold Simple.decode. rewrite simple_kept_tokens.
    replace (flat_map (token_of (Simple.id_to_token (Simple.__init__ None))) ids)
      with (@nil string); [reflexivity|].
    induction ids as [|id ids IH]; [reflexivity | exact IH].
Qed.

(** ** SimpleSubwordTokenizer: the punctuation rewrite *)

Lemma punct_not_space (c : ascii) : is_punct c = true -> is_space c = false.
Proof.
  destruct c as [[] [] [] [] [] [] [] []]; intros H; try reflexivity;
    vm_compute in H; discriminate.
Qed.

Lemma match_space_punct_some (s : string) :
  forall p rest,
    match_space_punct s = Some (p, rest) ->
    is_punct p = true /\ String.length rest < String.length s.
Proof.
  induction s as [|c s IH]; intros p rest H; [discriminate|].
  cbn [match_space_punct] in H. destruct (is_space c); [|discriminate].
  destruct s as [|d s']; [discriminate|].
  destruct (is_punct d) eqn:Ed.
  - injection H as <- <-. split; [assumption | simpl; lia].
  - destruct (IH p rest H) as [Hp Hlen]. split; [assumption | simpl in *; lia].
Qed.

Lemma match_space_punct_none (c d : ascii) (s : string) :
  match_space_punct (String c (String d s)) = None -> is_space c = true ->
  is_punct d = false /\ match_space_punct (String d s) = None.
Proof.
  intros H Hc. cbn [match_space_punct] in H. rewrite Hc in H.
  destruct (is_punct d); [discriminate|]. split; [reflexivity|].
  cbn [match_space_punct]. exact H.
Qed.

Lemma sub_space_punct_fuel_head (fuel : nat) (c : ascii) (s : string) :
  exists out,
    sub_space_punct_fuel (S fuel) (String c s)
    = String (match match_space_punct (String c s) with
              | Some (p, _) => p
              | None => c
              end) out.
Proof.
  cbn [sub_space_punct_fuel].
  destruct (match_space_punct (String c s)) as [[p rest]|]; eauto.
Qed.

Lemma sub_space_punct_fuel_clean (fuel : nat) :
  forall s, String.length s <= fuel ->
            no_space_before_punct (sub_space_punct_fuel fuel s).
Proof.
  induction fuel as [|fuel IH]; intros s Hlen; [exact I|].
  destruct s as [|c s]; [exact I|].
  cbn [sub_space_punct_fuel]. simpl in Hlen.
  destruct (match_space_punct (String c s)) as [[p rest]|] eqn:Em.
  - destruct (match_space_punct_some _ _ _ Em) as [Hp Hrest]. simpl in Hrest.
    cbn [no_space_before_punct]. split; [|apply IH; lia].
    destruct (sub_space_punct_fuel fuel rest); [exact I|].
    intros [Hsp _]. rewrite (punct_not_space p Hp) in Hsp. discriminate.
  - cbn [no_space_before_punct]. split; [|apply IH; lia].
    destruct s as [|d s']. { destruct fuel; exact I. }
    destruct fuel as [|fuel']; [simpl in Hlen; lia|].
    destruct (sub_space_punct_fuel_head fuel' d s') as [out Hout]. rewrite Hout.
    intros [Hsp Hpu].
    destruct (match_space_punct_none c d s' Em Hsp) as [Hd Hnone].
    rewrite Hnone in Hpu. congruence.
Qed.

(** X19: whatever the vocabulary and the ids, the text the simple [decode]
    returns never has a whitespace character directly before one of the
    punctuation characters [.,!?;:]. *)
Theorem simple_decode_no_space_before_punct (self : Simple.SimpleSubwordTokenizer)
        (ids : list Z) :
  no_space_before_punct (Simple.decode self ids).
Proof.
  unfold Simple.decode, sub_space_punct. apply sub_space_punct_fuel_clean. lia.
Qed.

Example simple_decode_example :
  Simple.decode (Simple.build_vocab "b a c, a b d e. Hi!")
                [11%Z; 7%Z; 4%Z; 5%Z; 1%Z; 10%Z; 12%Z; 99%Z]
  = "hi, b a.!".
Proof. vm_compute. reflexivity. Qed.

(** ** SimpleSubwordTokenizer: covered text *)

Lemma insert_char_in (c x : ascii) (l : list ascii) :
  In x (insert_char c l) <-> x = c \/ In x l.
Proof.
  induction l as [|d l IH]; simpl; [intuition|].
  destruct (N_of_ascii c <=? N_of_ascii d)%N; simpl; rewrite ?IH; intuition.
Qed.

Lemma sorted_set_in (s : string) (x : ascii) :
  In x (sorted_set s) <-> In x (list_ascii_of_string s).
Proof.
  unfold sorted_set.
  assert (H : forall l, In x (fold_right insert_char [] l) <-> In x l).
  { induction l as [|c l IH]; simpl; [reflexivity|].
    rewrite insert_char_in, IH. intuition. }
  rewrite H. apply nodup_In.
Qed.

Lemma simple_char_loop_keep (cs : list ascii) (x : string) :
  forall vocab,
    In x vocab \/ (exists ch, In ch cs /\ is_space ch = false /\ x = String ch EmptyString) ->
    In x (fold_left
            (fun vocab ch =>
               let char := String ch EmptyString in
               if negb (str_in char vocab) && negb (is_space ch)
               then vocab ++ [char] else vocab)
            cs vocab).
Proof.
  induction cs as [|c cs IH]; intros vocab H; simpl.
  - destruct H as [H|(ch & [] & _)]. assumption.
  - apply IH. destruct H as [H|(ch & [->|Hin] & Hns & ->)].
    + left. destruct (negb _ && negb _); [apply in_or_app; now left | assumption].
    + left. rewrite Hns. destruct (str_in (String ch EmptyString) vocab) eqn:E; simpl.
      * now apply str_in_In.
      * apply in_or_app. right. now left.
    + right. exists ch. auto.
Qed.

(** Every non-whitespace character of the lowercased text is in the list
    [build_vocab] numbers. *)
Lemma simple_build_list_chars (text : string) (c : ascii) :
  In c (list_ascii_of_string (lower text)) -> is_space c = false ->
  In (String c EmptyString) (Simple.build_list text).
Proof.
  intros Hc Hns. unfold Simple.build_list. apply simple_char_loop_keep.
  right. exists c. split; [now apply sorted_set_in | auto].
Qed.

(** X20: when every non-whitespace character of the lowercased text occurs
    in the lowercased text the vocabulary was built from, the simple
    [encode] never falls back to the unknown token: the id 1 does not occur
    in its result. *)
Theorem simple_encode_covered (text text' : string) :
  (forall c, In c (list_ascii_of_string (lower text')) -> is_space c = false ->
             In c (list_ascii_of_string (lower text))) ->
  exists ids,
    Simple.encode (Simple.build_vocab text) text' = Ok ids /\ ~ In 1%Z ids.
Proof.
  intros Hcover.
  destruct (simple_built text) as (l & Hnd & Hl & Ht2i & Hi2t & Hunk & Hlen).
  eexists. split; [apply (simple_encode_total _ 1 text'); now rewrite Ht2i|].
  rewrite Ht2i. intros Hin. apply in_map_iff in Hin. destruct Hin as (token & Hid & Htok).
  pose proof (simple_tokens_not_special (enumerate_items l) (lower text')) as Hns.
  rewrite Forall_forall in Hns. specialize (Hns token Htok).
  assert (Hvocab : In token l).
  { apply in_flat_map in Htok. destruct Htok as (w & Hw & Htok).
    destruct (in_vocab (enumerate_items l) w) eqn:E.
    - destruct Htok as [<-|[]]. unfold in_vocab in E.
      destruct (dict_get String.eqb (enumerate_items l) w) as [id|] eqn:Eg; [|discriminate].
      apply (dict_get_some_in String.eqb String.eqb_eq) in Eg.
      rewrite <- (enumerate_keys_items l). change w with (fst (w, id)).
      now apply in_map.
    - pose proof (chars_are_chars w) as Hall. rewrite Forall_forall in Hall.
      pose proof (Hall token Htok) as Hone.
      destruct token as [|c [|d token]]; try discriminate.
      apply chars_in in Htok.
      assert (Hs : Segments is_word (lower text') (findall is_word (lower text')))
        by now apply Segments_iff_findall.
      destruct (Segments_chars _ _ Hs w c Hw Htok) as [Hc Hnsp].
      rewrite <- Hl. apply simple_build_list_chars; auto. }
  destruct (dict_get_in_keys String.eqb String.eqb_eq (enumerate_items l) token)
    as [id Hget]; [now rewrite enumerate_keys_items|].
  unfold id_or_unk, dict_get_default in Hid. rewrite Hget in Hid. subst id.
  assert (Hinv : forall t i, dict_get String.eqb (enumerate_items l) t = Some i ->
                             dict_get Z.eqb (map (fun kv => (snd kv, fst kv))
                                                 (enumerate_items l)) i = Some t).
  { intros t i. apply inverse_lookup.
    - now rewrite enumerate_keys_items.
    - apply enumerate_values_distinct. }
  pose proof (Hinv _ _ Hget) as H1. pose proof (Hinv _ _ Hunk) as H2.
  rewrite H1 in H2. injection H2 as ->. discriminate Hns.
Qed.

Lemma simple_encode_covered_witness :
  exists ids,
    Simple.encode (Simple.build_vocab "b a c, a b d e. Hi!") "Bad Idea!" = Ok ids /\
    ~ In 1%Z ids.
Proof.
  apply (simple_encode_covered "b a c, a b d e. Hi!" "Bad Idea!").
  intros c Hc _. simpl in Hc. simpl. intuition.
Defined.

(** ** SimpleSubwordTokenizer: the words that are kept *)

Lemma insert_by_count_descending (x : string * Z) (l : list (string * Z)) :
  descending l -> descending (insert_by_count x l).
Proof.
  induction l as [|y l IH]; intros H; [repeat constructor|].
  destruct H as [Hy Hl]. cbn [insert_by_count].
  destruct (snd x <? snd y)%Z eqn:E.
  - apply Z.ltb_lt in E. split; [|now apply IH].
    apply Forall_forall. intros z Hz.
    apply (proj1 (insert_by_count_in x z l)) in Hz. destruct Hz as [->|Hz]; [lia|].
    rewrite Forall_forall in Hy. now apply Hy.
  - apply Z.ltb_ge in E. split; [|split; assumption].
    constructor; [assumption|].
    eapply Forall_impl; [|exact Hy]. simpl. intros; lia.
Qed.

Lemma sorted_by_count_descending (c : dict string Z) :
  descending (fold_right insert_by_count [] c).
Proof.
  induction c as [|x c IH]; [exact I|]. simpl. now apply insert_by_count_descending.
Qed.

Lemma descending_app (a b : list (string * Z)) :
  descending (a ++ b) ->
  descending a /\ forall x y, In x a -> In y b -> (snd y <= snd x)%Z.
Proof.
  induction a as [|z a IH]; intros H; simpl in *.
  - split; [exact I | intros x y []].
  - destruct H as [Hz Hab]. destruct (IH Hab) as [Ha Hle].
    apply Forall_app in Hz. destruct Hz as [Hza Hzb]. split; [split; assumption|].
    intros x y [<-|Hx] Hy; [|now apply Hle].
    rewrite Forall_forall in Hzb. now apply Hzb.
Qed.

(** ** Case *)

Lemma lower_char_idempotent (c : ascii) : lower_char (lower_char c) = lower_char c.
Proof. destruct c as [[] [] [] [] [] [] [] []]; reflexivity. Qed.

Lemma lower_idempotent (s : string) : lower (lower s) = lower s.
Proof.
  induction s as [|c s IH]; simpl; [reflexivity|].
  now rewrite lower_char_idempotent, IH.
Qed.

(** X22: encoding ignores letter case: both tokenizers encode a text and
    its lowercased form alike, whatever their state. *)
Theorem encode_ignores_case (self : BPETokenizer) (simple : Simple.SimpleSubwordTokenizer)
        (text : string) :
  encode self (lower text) = encode self text /\
  Simple.encode simple (lower text) = Simple.encode simple text.
Proof.
  unfold encode, Simple.encode, _pre_tokenize. now rewrite lower_idempotent.
Qed.

(** ** What the vocabulary is seeded with *)

Lemma add_char_step_from (cs : list string) (x : string) :
  forall vocab,
    In x (fold_left (fun vocab char => if str_in char vocab then vocab else vocab ++ [char])
                    cs vocab) ->
    In x vocab \/ In x cs.
Proof.
  induction cs as [|ch cs IH]; intros vocab H; simpl in H; [now left|].
  apply IH in H. destruct H as [H|H]; [|right; now right].
  destruct (str_in ch vocab); [now left|].
  apply in_app_or in H. destruct H as [H|[<-|[]]]; [now left | right; now left].
Qed.

Lemma seed_vocab_acc_from (words : list string) (x : string) :
  forall vocab,
    In x (fold_left add_chars words vocab) ->
    In x vocab \/ exists w, In w words /\ In x (chars w).
Proof.
  induction words as [|w0 words IH]; intros vocab H; simpl in H; [now left|].
  apply IH in H. destruct H as [H|(w & Hw & Hx)].
  - unfold add_chars in H. apply add_char_step_from in H.
    destruct H as [H|H]; [now left|]. right. exists w0. split; [now left | assumption].
  - right. exists w. split; [now right | assumption].
Qed.

Lemma NoDup_app_disjoint (A : Type) (l l' : list A) (a : A) :
  NoDup (l ++ l') -> In a l -> In a l' -> False.
Proof.
  induction l as [|b l IH]; simpl; intros H Hin Hin'; [contradiction|].
  inversion H as [|? ? Hb Hrest]; subst. destruct Hin as [->|Hin].
  - apply Hb. apply in_or_app. now right.
  - now apply IH.
Qed.

(** The seeded vocabulary is the four special tokens followed by the
    distinct characters of the pre-tokenized words of the corpus, each
    once. *)
Lemma seed_vocab_characters (texts : list string) :
  exists seeded_chars,
    seed_vocab (count_words texts) = special_tokens ++ seeded_chars /\
    NoDup seeded_chars /\
    forall x, In x seeded_chars <->
              exists text w, In text texts /\ In w (_pre_tokenize text) /\ In x (chars w).
Proof.
  destruct (seed_vocab_prefix (count_words texts)) as [rest Hrest].
  destruct (seed_vocab_seeded (count_words texts)) as [Hnd Hall].
  exists rest. split; [assumption|]. rewrite Hrest in Hnd. split.
  - now apply NoDup_app_remove_l in Hnd.
  - intros x. split.
    + intros Hx.
      assert (Hseed : In x (seed_vocab (count_words texts)))
        by (rewrite Hrest; apply in_or_app; now right).
      apply seed_vocab_acc_from in Hseed. destruct Hseed as [Hsp|(w & Hw & Hxw)].
      * exfalso. exact (NoDup_app_disjoint _ _ _ x Hnd Hsp Hx).
      * apply count_words_acc_in in Hw. destruct Hw as [[]|(text & Ht & Hw)].
        exists text, w. auto.
    + intros (text & w & Ht & Hw & Hxw).
      assert (Hseed : In x (seed_vocab (count_words texts))).
      { apply seed_vocab_acc_keep. right. exists w. split; [|assumption].
        apply count_words_acc_keep. right. exists text. auto. }
      rewrite Hrest in Hseed. apply in_app_or in Hseed.
      destruct Hseed as [Hsp|Hr]; [|assumption].
      pose proof (chars_are_chars w) as Hch. rewrite Forall_forall in Hch.
      specialize (Hch x Hxw). unfold is_char in Hch.
      destruct Hsp as [<-|[<-|[<-|[<-|[]]]]]; discriminate.
Qed.

(** C1 (as amended): every completed merge iteration adds exactly one entry
    to the vocabulary (and one merge) and leaves it within [vocab_size];
    training returns, and the final vocabulary has the seeded entries and
    one entry per learned merge.  The seeded entries are the four special
    tokens and the distinct characters of the pre-tokenized words of the
    corpus, so the final size is 4 plus the number of those characters plus
    the number of learned merges, and it never exceeds the larger of
    [vocab_size] and the seeded size. *)
Theorem train_vocab_growth (self : BPETokenizer) (texts : list string) :
  (forall st st',
      train_iter (vocab_size self) (count_words texts) st = Ok (Some st') ->
      length (ts_vocab st') = S (length (ts_vocab st)) /\
      length (ts_merges st') = S (length (ts_merges st)) /\
      (Z.of_nat (length (ts_vocab st')) <= vocab_size self)%Z) /\
  exists t learned seeded_chars,
    train self texts = Some (Ok t) /\
    merges t = merges self ++ learned /\
    seed_vocab (count_words texts) = special_tokens ++ seeded_chars /\
    NoDup seeded_chars /\
    (forall x, In x seeded_chars <->
               exists text w, In text texts /\ In w (_pre_tokenize text) /\ In x (chars w)) /\
    length (vocab t) = 4 + length seeded_chars + length learned /\
    length (vocab t) = length (seed_vocab (count_words texts)) + length learned /\
    (vocab_len t
     <= Z.max (vocab_size self) (Z.of_nat (length (seed_vocab (count_words texts)))))%Z.
Proof.
  split; [intros st st'; apply train_iter_grows|].
  destruct (train_returns self texts) as (learned & st & Htrain & Hinv & Hle).
  destruct (seed_vocab_characters texts) as (seeded_chars & Hseed & Hnd & Hchars).
  exists (train_finish self st), learned, seeded_chars. split; [assumption|].
  pose proof (train_finish_vocab self st (ti_nodup _ _ _ _ Hinv)) as Hvocab.
  assert (Hlen : length (vocab (train_finish self st)) = length (ts_vocab st))
    by (rewrite Hvocab; apply enumerate_length).
  assert (Hsize : length (ts_vocab st)
                  = length (seed_vocab (count_words texts)) + length learned)
    by (rewrite (ti_vocab _ _ _ _ Hinv), length_app, length_map; reflexivity).
  split; [exact (ti_merges _ _ _ _ Hinv)|].
  split; [assumption|]. split; [assumption|]. split; [assumption|]. split; [|split].
  - rewrite Hlen, Hsize, Hseed, length_app. reflexivity.
  - now rewrite Hlen.
  - unfold vocab_len. rewrite Hlen. exact Hle.
Qed.

(** ** The learned merges are determined by the corpus *)

Lemma first_max_unique (pf : dict (string * string) Z) (m1 m2 : string * string) :
  first_max pf m1 -> first_max pf m2 -> m1 = m2.
Proof.
  intros (v1 & b1 & a1 & H1 & Hb1 & Ha1) (v2 & b2 & a2 & H2 & Hb2 & Ha2).
  rewrite H1 in H2. clear H1 pf.
  revert b2 H2 Hb2. induction b1 as [|x b1 IH]; intros b2 H2 Hb2.
  - destruct b2 as [|y b2]; simpl in H2.
    + now injection H2.
    + injection H2 as Hy Hrest.
      pose proof (Forall_inv Hb2) as Hlt. rewrite <- Hy in Hlt. simpl in Hlt.
      rewrite Forall_forall in Ha1.
      assert (Hin : In (m2, v2) a1) by (rewrite Hrest; apply in_or_app; right; now left).
      specialize (Ha1 _ Hin). simpl in Ha1. lia.
  - destruct b2 as [|y b2]; simpl in H2.
    + injection H2 as Hx Hrest.
      pose proof (Forall_inv Hb1) as Hlt. rewrite Hx in Hlt. simpl in Hlt.
      rewrite Forall_forall in Ha2.
      assert (Hin : In (m1, v1) a2) by (rewrite <- Hrest; apply in_or_app; right; now left).
      specialize (Ha2 _ Hin). simpl in Ha2. lia.
    + injection H2 as _ Hrest.
      exact (IH (Forall_inv_tail Hb1) b2 Hrest (Forall_inv_tail Hb2)).
Qed.

Lemma max_key_first_max (pf : dict (string * string) Z) (m : string * string) :
  max_key pf = Some m -> first_max pf m.
Proof.
  destruct pf as [|[k v] items]; [discriminate|].
  cbn [max_key]. intros H. injection H as <-.
  destruct (max_from_spec items [] [] k v) as (v' & pre' & post' & Heq & H1 & H2);
    [constructor | constructor |].
  exists v', pre', post'. auto.
Qed.

Lemma train_inv_size (word_freqs : dict string Z) old learned st :
  train_inv word_freqs old learned st ->
  length (ts_vocab st) = length (seed_vocab word_freqs) + length learned.
Proof.
  intros Hinv. rewrite (ti_vocab _ _ _ _ Hinv), length_app, length_map. reflexivity.
Qed.

(** One pass through the loop body, with what decided it: the loop ends
    when the vocabulary has reached the target or no pair is counted, and
    otherwise the merge it appends is the first pair of greatest count. *)
Lemma train_iter_choice (target : Z) (word_freqs : dict string Z)
      (old learned : list (string * string)) (st : train_state) :
  NoDup (keys word_freqs) -> Forall is_segment (keys word_freqs) ->
  train_inv word_freqs old learned st ->
  (train_iter target word_freqs st = Ok None /\
   ((target <= Z.of_nat (length (seed_vocab word_freqs) + length learned))%Z \/
    pair_counts word_freqs learned = Ok [])) \/
  (exists best_pair st',
      train_iter target word_freqs st = Ok (Some st') /\
      train_inv word_freqs old (learned ++ [best_pair]) st' /\
      (Z.of_nat (length (seed_vocab word_freqs) + length learned) < target)%Z /\
      (exists pf, pair_counts word_freqs learned = Ok pf /\ first_max pf best_pair) /\
      ts_vocab st' = ts_vocab st ++ [join_pair best_pair]).
Proof.
  intros Hnd Hseg Hinv.
  pose proof (train_inv_size _ _ _ _ Hinv) as Hsize.
  pose proof (ti_splits _ _ _ _ Hinv) as Hsplits.
  pose proof (ti_merges _ _ _ _ Hinv) as Hmerges.
  destruct (train_iter_inv target word_freqs old learned st Hnd Hseg Hinv)
    as [Hend|(bp & st' & Hiter & Hinv' & Hlt & Hvoc)].
  - left. split; [assumption|]. unfold train_iter in Hend.
    destruct (Z.of_nat (length (ts_vocab st)) <? target)%Z eqn:E.
    + right. unfold pair_counts, table. rewrite <- Hsplits.
      destruct (count_pairs word_freqs (ts_splits st)) as [pf|e]; cbn [bind] in Hend;
        [|discriminate].
      destruct pf as [|[k v] pf]; [reflexivity|]. cbn [max_key] in Hend.
      destruct (update_splits _ _ _ _); cbn [bind] in Hend; discriminate.
    + left. apply Z.ltb_ge in E. lia.
  - right. exists bp, st'. split; [assumption|]. split; [assumption|].
    split; [lia|]. split; [|assumption].
    unfold train_iter in Hiter.
    destruct (Z.of_nat (length (ts_vocab st)) <? target)%Z; [|discriminate].
    unfold pair_counts, table. rewrite <- Hsplits.
    destruct (count_pairs word_freqs (ts_splits st)) as [pf|e]; cbn [bind] in Hiter;
      [|discriminate].
    exists pf. split; [reflexivity|]. apply max_key_first_max.
    destruct (max_key pf) as [bp0|]; [|discriminate].
    destruct (update_splits _ _ _ _) as [sp|e]; cbn [bind] in Hiter; [|discriminate].
    injection Hiter as Hst'.
    pose proof (ti_merges _ _ _ _ Hinv') as Hm'.
    rewrite <- Hst' in Hm'. cbn [ts_merges] in Hm'.
    rewrite Hmerges, app_assoc in Hm'. apply app_inj_tail in Hm'.
    destruct Hm' as [_ ->]. reflexivity.
Qed.

Lemma train_loop_learned (target : Z) (word_freqs : dict string Z)
      (old : list (string * string)) :
  NoDup (keys word_freqs) -> Forall is_segment (keys word_freqs) ->
  forall fuel learned st,
    train_inv word_freqs old learned st ->
    Z.to_nat (target - Z.of_nat (length (ts_vocab st))) < fuel ->
    exists more st',
      train_loop fuel target word_freqs st = Some (Ok st') /\
      train_inv word_freqs old (learned ++ more) st' /\
      learned_from word_freqs target learned more.
Proof.
  intros Hnd Hseg. induction fuel as [|fuel IH]; intros learned st Hinv Hfuel; [lia|].
  cbn [train_loop].
  pose proof (train_inv_size _ _ _ _ Hinv) as Hsize.
  destruct (train_iter_choice target word_freqs old learned st Hnd Hseg Hinv)
    as [[Hend Hstop]|(bp & st1 & Hiter & Hinv1 & Hlt & Hpick & Hvoc)].
  - rewrite Hend. exists [], st. rewrite app_nil_r.
    split; [reflexivity | split; [assumption | exact Hstop]].
  - rewrite Hiter.
    assert (Hlen : length (ts_vocab st1) = S (length (ts_vocab st)))
      by (rewrite Hvoc, length_app; simpl; lia).
    destruct (IH (learned ++ [bp]) st1 Hinv1) as (more & st' & Hloop & Hinv' & Hmore).
    + rewrite Hlen. lia.
    + exists (bp :: more), st'. split; [assumption|].
      split; [now rewrite <- app_assoc in Hinv'|].
      cbn [learned_from]. auto.
Qed.

Lemma learned_from_unique (word_freqs : dict string Z) (target : Z)
      (rest : list (string * string)) :
  forall prefix rest',
    learned_from word_freqs target prefix rest ->
    learned_from word_freqs target prefix rest' ->
    rest = rest'.
Proof.
  induction rest as [|m rest IH]; intros prefix rest' H H';
    destruct rest' as [|m' rest']; cbn [learned_from] in H, H'.
  - reflexivity.
  - destruct H' as (Hlt & (pf & Hpf & Hmax) & _). destruct H as [Hge|Hnone]; [lia|].
    rewrite Hnone in Hpf. injection Hpf as <-.
    destruct Hmax as (v & b & a & Heq & _). destruct b; discriminate.
  - destruct H as (Hlt & (pf & Hpf & Hmax) & _). destruct H' as [Hge|Hnone]; [lia|].
    rewrite Hnone in Hpf. injection Hpf as <-.
    destruct Hmax as (v & b & a & Heq & _). destruct b; discriminate.
  - destruct H as (_ & (pf & Hpf & Hmax) & Hrest).
    destruct H' as (_ & (pf' & Hpf' & Hmax') & Hrest').
    rewrite Hpf in Hpf'. injection Hpf' as <-.
    pose proof (first_max_unique pf m m' Hmax Hmax') as <-.
    f_equal. exact (IH _ _ Hrest Hrest').
Qed.

(** C3 (as amended): training tokenizers that hold no merges (as freshly
    constructed ones do) is deterministic.  Two such runs on the same
    corpus with the same [vocab_size] return the same tokenizer: the same
    vocabulary mapping, the same merge sequence, the same inverse
    vocabulary.  The vocabulary numbers the seeded entries and then the
    merge tokens, and the merge sequence is the only one that follows the
    rule of the loop: each merge is the first pair of greatest count after
    the merges before it, and the sequence goes on exactly as long as the
    vocabulary is smaller than [vocab_size] and a pair is counted. *)
Theorem train_deterministic (t1 t2 : BPETokenizer) (texts : list string) :
  vocab_size t1 = vocab_size t2 -> merges t1 = [] -> merges t2 = [] ->
  exists r,
    train t1 texts = Some (Ok r) /\
    train t2 texts = Some (Ok r) /\
    vocab r = enumerate_items (seed_vocab (count_words texts) ++ map join_pair (merges r)) /\
    inv_vocab r = Some (invert (vocab r)) /\
    learned_from (count_words texts) (vocab_size t1) [] (merges r) /\
    forall ms, learned_from (count_words texts) (vocab_size t1) [] ms -> ms = merges r.
Proof.
  intros Hvs Hm1 Hm2.
  pose proof (count_words_nodup texts) as Hnd.
  pose proof (count_words_segments texts) as Hseg.
  destruct (train_loop_learned (vocab_size t1) (count_words texts) (merges t1) Hnd Hseg
              (train_fuel t1 (count_words texts)) []
              (train_start t1 (count_words texts))
              (train_start_inv t1 (count_words texts) Hnd))
    as (learned & st & Hloop & Hinv & Hlearned).
  { unfold train_fuel. cbn [train_start ts_vocab]. lia. }
  assert (Htrain : train t1 texts = Some (Ok (train_finish t1 st)))
    by (unfold train; now rewrite Hloop).
  assert (Hmerges : merges (train_finish t1 st) = learned).
  { cbn [train_finish merges]. rewrite (ti_merges _ _ _ _ Hinv), Hm1. reflexivity. }
  exists (train_finish t1 st). split; [assumption|]. split.
  - rewrite <- Htrain. unfold train, train_fuel, train_start, train_finish.
    now rewrite Hvs, Hm1, Hm2.
  - rewrite Hmerges. split; [|split; [reflexivity|split; [assumption|]]].
    + rewrite (train_finish_vocab t1 st (ti_nodup _ _ _ _ Hinv)).
      now rewrite (ti_vocab _ _ _ _ Hinv).
    + intros ms Hms. exact (learned_from_unique _ _ _ _ _ Hms Hlearned).
Qed.

Lemma train_deterministic_witness :
  exists r,
    train (__init__ 30) example_corpus = Some (Ok r) /\
    train {| vocab_size := 30; vocab := [("x", 7%Z)]; merges := [];
             inv_vocab := Some [(7%Z, "x")] |} example_corpus = Some (Ok r) /\
    vocab r = enumerate_items (seed_vocab (count_words example_corpus)
                               ++ map join_pair (merges r)) /\
    inv_vocab r = Some (invert (vocab r)) /\
    learned_from (count_words example_corpus) 30 [] (merges r) /\
    forall ms, learned_from (count_words example_corpus) 30 [] ms -> ms = merges r.
Proof.
  apply (train_deterministic
           (__init__ 30)
           {| vocab_size := 30; vocab := [("x", 7%Z)]; merges := [];
              inv_vocab := Some [(7%Z, "x")] |}
           example_corpus); reflexivity.
Defined.

(** C3 (as stated) fails when the two runs are on the same tokenizer: the
    second run on the same corpus with the same [vocab_size] leaves a merge
    sequence that differs from the one the first run left. *)
Lemma train_twice_merges_differ :
  exists t1 t2,
    train (__init__ 30) example_corpus = Some (Ok t1) /\
    train t1 example_corpus = Some (Ok t2) /\
    vocab_size t1 = 30%Z /\ vocab_size t2 = 30%Z /\
    vocab t2 = vocab t1 /\
    length (merges t1) = 8 /\ length (merges t2) = 16 /\
    merges t2 <> merges t1.
Proof.
  eexists. eexists.
  split; [vm_compute; reflexivity|].
  split; [vm_compute; reflexivity|].
  repeat (split; [reflexivity|]).
  intros H. apply (f_equal (@length _)) in H. discriminate H.
Qed.

(** ** SimpleSubwordTokenizer: the whole words of the vocabulary *)

Lemma insert_by_count_length (x : string * Z) (l : list (string * Z)) :
  length (insert_by_count x l) = S (length l).
Proof.
  induction l as [|y l IH]; [reflexivity|].
  cbn [insert_by_count]. destruct (snd x <? snd y)%Z; cbn [length]; [now rewrite IH | reflexivity].
Qed.

Lemma sorted_by_count_length (c : dict string Z) :
  length (fold_right insert_by_count [] c) = length c.
Proof.
  induction c as [|x c IH]; [reflexivity|].
  cbn [fold_right length]. now rewrite insert_by_count_length, IH.
Qed.

(** What [most_common] keeps, whatever the cut-off and the counter. *)
Lemma most_common_spec (n : nat) (c : dict string Z) :
  length (most_common n c) = Nat.min n (length c) /\
  descending (most_common n c) /\
  (forall x, In x (most_common n c) -> In x c) /\
  (forall k o, In k (most_common n c) -> In o c -> ~ In o (most_common n c) ->
               (snd o <= snd k)%Z).
Proof.
  unfold most_common.
  pose proof (sorted_by_count_descending c) as Hdesc.
  rewrite <- (firstn_skipn n (fold_right insert_by_count [] c)) in Hdesc.
  destruct (descending_app _ _ Hdesc) as [Hfirst Hle].
  split; [now rewrite length_firstn, sorted_by_count_length|].
  split; [assumption|]. split.
  - intros x Hx. apply firstn_in in Hx. now apply (proj1 (sorted_by_count_in c x)).
  - intros k o Hk Ho Hout. apply Hle; [assumption|].
    apply (proj2 (sorted_by_count_in c o)) in Ho.
    rewrite <- (firstn_skipn n (fold_right insert_by_count [] c)) in Ho.
    apply in_app_or in Ho. destruct Ho; [contradiction | assumption].
Qed.

(** X21: the whole words of the simple vocabulary.  After the four special
    tokens, [build_vocab] numbers the words of the text in order of
    descending count, up to 3000 of them (all of them when there are
    fewer), the word at place [j] getting the id [4 + j]; the characters
    come after them.  A word that is left out has a count no greater than
    any word that is kept. *)
Theorem simple_keeps_most_frequent (text : string) :
  let word_freq := counter_update [] (findall is_word (lower text)) in
  let kept := most_common 3000 word_freq in
  (exists added,
      Simple.build_list text = Simple.special_tokens ++ map fst kept ++ added) /\
  length kept = Nat.min 3000 (length word_freq) /\
  descending kept /\
  (forall x, In x kept -> In x word_freq) /\
  (forall j x,
      nth_error kept j = Some x ->
      dict_get String.eqb (Simple.token_to_id (Simple.build_vocab text)) (fst x)
      = Some (Z.of_nat (4 + j))) /\
  (forall k o, In k kept -> In o word_freq -> ~ In o kept -> (snd o <= snd k)%Z).
Proof.
  intros word_freq kept.
  assert (Hlist : exists added,
             Simple.build_list text = Simple.special_tokens ++ map fst kept ++ added).
  { unfold Simple.build_list. fold word_freq. fold kept.
    match goal with
    | |- exists added, fold_left ?f ?cs ?init = _ =>
        destruct (fold_left_prefix _ _ f cs) with (l := init) as [l' Hl']
    end.
    - intros l ch. cbn zeta. destruct (negb _ && negb _); [eauto|].
      exists []. now rewrite app_nil_r.
    - exists l'. rewrite Hl'. now rewrite <- app_assoc. }
  destruct (most_common_spec 3000 word_freq) as (Hlen & Hdesc & Hin & Hle).
  split; [exact Hlist|]. split; [exact Hlen|]. split; [exact Hdesc|].
  split; [exact Hin|]. split; [|exact Hle].
  intros j x Hj. destruct Hlist as [added Hadded].
  destruct (simple_built text) as (l & Hnd & Hl & Ht2i & _).
  rewrite Ht2i. apply enumerate_get_nth; [assumption|].
  rewrite <- Hl, Hadded.
  rewrite nth_error_app2 by (cbn [Simple.special_tokens length]; lia).
  replace (4 + j - length Simple.special_tokens) with j
    by (cbn [Simple.special_tokens length]; lia).
  rewrite nth_error_app1.
  - now apply map_nth_error.
  - rewrite length_map. apply nth_error_Some. congruence.
Qed.

Example most_common_example :
  most_common 2 (counter_update [] (findall is_word (lower "b a c a b d a")))
  = [("a", 3%Z); ("b", 2%Z)].
Proof. vm_compute. reflexivity. Qed.
